(** * Local PDF retrieval (RAGSystem, rag_utils.py): model and properties

    The development follows [src/rag_utils.py].  Python values are modelled
    as the code uses them: [int] as [Z], [str] as [string] (a sequence of
    code points below 256), lists as [list], the chunk dictionaries as
    heap-allocated records reached through references, and exceptions as an
    error result.  Distances and relevance scores are exact rationals
    ([Q]): rounding of the machine floats is not part of the model. *)

From Stdlib Require Import ZArith QArith Lqa String Ascii List Lia Bool Sorted.
From Stdlib Require Import DecimalString Permutation.
From stdpp Require Import base list.
Import ListNotations.

Local Open Scope Z_scope.

(** ** Python results: a value or a raised exception *)

Module Py.

Inductive exn : Set :=
| ValueError
| IndexError
| AssertionError
| AttributeError
| SystemError.

Inductive result (A : Type) : Type :=
| Ok (a : A)
| Raise (e : exn).

Arguments Ok {A} a.
Arguments Raise {A} e.

Definition bind {A B} (m : result A) (k : A -> result B) : result B :=
  match m with
  | Ok a => k a
  | Raise e => Raise e
  end.

(** Number of items of [range(start, stop, step)] for a step other than
    zero. *)
Definition range_length (start stop step : Z) : Z :=
  if 0 <? step then
    if start <? stop then (stop - start - 1) / step + 1 else 0
  else
    if stop <? start then (start - stop - 1) / (- step) + 1 else 0.

(** [range(start, stop, step)]: a zero step raises [ValueError]; otherwise
    the arithmetic progression from [start] that stays strictly before
    [stop] (after it, for a negative step). *)
Definition range (start stop step : Z) : result (list Z) :=
  if step =? 0 then Raise ValueError
  else
    Ok (map (fun k => start + Z.of_nat k * step)
            (seq 0 (Z.to_nat (range_length start stop step)))).

(** A slice bound as [l[i:j]] reads it: a negative bound counts from the
    end, and every bound is clamped to [0 .. len l]. *)
Definition clamp (n x : Z) : Z :=
  if x <? 0 then Z.max 0 (x + n) else Z.min x n.

(** [l[i:j]] *)
Definition slice {A} (l : list A) (i j : Z) : list A :=
  let n := Z.of_nat (length l) in
  let lo := clamp n i in
  let hi := clamp n j in
  take (Z.to_nat (hi - lo)) (drop (Z.to_nat lo) l).

(** [l[i]]: a negative index counts from the end; out of range raises
    [IndexError]. *)
Definition getitem {A} (l : list A) (i : Z) : result A :=
  let n := Z.of_nat (length l) in
  let i' := if i <? 0 then i + n else i in
  if i' <? 0 then Raise IndexError
  else match l !! Z.to_nat i' with
       | Some x => Ok x
       | None => Raise IndexError
       end.

(** [enumerate(l)] *)
Definition enumerate {A} (l : list A) : list (Z * A) :=
  imap (fun i x => (Z.of_nat i, x)) l.

(** A loop whose body may raise: the first exception ends it. *)
Fixpoint for_each {A B} (body : B -> A -> result B) (l : list A) (acc : B)
    : result B :=
  match l with
  | [] => Ok acc
  | x :: rest =>
      match body acc x with
      | Ok acc' => for_each body rest acc'
      | Raise e => Raise e
      end
  end.

(** [c.isspace()] on the code points below 256: TAB..CR, FS..US, SPACE,
    NEL and NBSP. *)
Definition isspace (c : ascii) : bool :=
  let n := N_of_ascii c in
  ((9 <=? n) && (n <=? 13) || (28 <=? n) && (n <=? 32)
   || (n =? 133) || (n =? 160))%N.

(** [len(s)] *)
Definition len (s : string) : Z := Z.of_nat (String.length s).

(** [s.split()]: maximal runs of non-whitespace characters, in order.
    [word] is the run read so far. *)
Fixpoint split_from (word : string) (s : string) : list string :=
  match s with
  | EmptyString =>
      match word with EmptyString => [] | _ => [word] end
  | String c rest =>
      if isspace c then
        match word with
        | EmptyString => split_from EmptyString rest
        | _ => word :: split_from EmptyString rest
        end
      else split_from (String.append word (String c EmptyString)) rest
  end.

Definition split (s : string) : list string := split_from EmptyString s.

(** [sep.join(ws)] *)
Definition join (sep : string) (ws : list string) : string :=
  String.concat sep ws.

Fixpoint lstrip (s : string) : string :=
  match s with
  | EmptyString => EmptyString
  | String c rest => if isspace c then lstrip rest else s
  end.

Fixpoint rstrip (s : string) : string :=
  match s with
  | EmptyString => EmptyString
  | String c rest =>
      match rstrip rest with
      | EmptyString => if isspace c then EmptyString else String c EmptyString
      | kept => String c kept
      end
  end.

(** [s.strip()] *)
Definition strip (s : string) : string := rstrip (lstrip s).

End Py.

Import Py.

Notation "'let*' x ':=' m 'in' k" := (Py.bind m (fun x => k))
  (at level 10, x pattern, m at level 100, k at level 200).

(** ** The chunker: [RAGSystem.chunk_text] *)

Definition DEFAULT_CHUNK_SIZE : Z := 500.
Definition DEFAULT_OVERLAP : Z := 50.
Definition MIN_CHUNK_CHARS : Z := 50.

(** One turn of the loop body of [chunk_text]: the window of [chunk_size]
    words at offset [i], joined by single spaces, is kept when its stripped
    length exceeds 50. *)
Definition chunk_step (words : list string) (chunk_size : Z)
    (chunks : list string) (i : Z) : list string :=
  let chunk := join " " (slice words i (i + chunk_size)) in
  if MIN_CHUNK_CHARS <? len (strip chunk) then chunks ++ [chunk] else chunks.

Definition chunk_text (text : string) (chunk_size overlap : Z)
    : result (list string) :=
  let words := split text in
  let* offsets := range 0 (Z.of_nat (length words)) (chunk_size - overlap) in
  Ok (fold_left (chunk_step words chunk_size) offsets []).

(** ** The vector index: [faiss.IndexFlatL2]

    The index is the faiss library's flat L2 index, which is not part of
    the repository.  It is modelled from the library's documented
    behaviour: [add] appends the vectors in order; [search] returns, for
    one query, exactly [k] (distance, label) pairs in ascending order of
    squared Euclidean distance, and when fewer than [k] vectors are stored
    the missing places carry label [-1] and distance [FLT_MAX]; the Python
    wrapper asserts [k > 0].  Equal distances are listed by position. *)

Module faiss.

Abbreviation vector := (list Q).

Definition FLT_MAX : Q := 340282346638528859811704183484516925440 # 1.

(** Squared L2 distance of two vectors of the dimension of the index. *)
Fixpoint fvec_L2sqr (x y : vector) : Q :=
  match x, y with
  | a :: x', b :: y' => ((a - b) * (a - b) + fvec_L2sqr x' y')%Q
  | _, _ => 0%Q
  end.

Definition Qlt_bool (a b : Q) : bool := negb (Qle_bool b a).

Fixpoint insert_hit (x : Q * Z) (l : list (Q * Z)) : list (Q * Z) :=
  match l with
  | [] => [x]
  | y :: l' =>
      if Qlt_bool (fst y) (fst x) then y :: insert_hit x l' else x :: l
  end.

Definition sort_hits (l : list (Q * Z)) : list (Q * Z) :=
  foldr insert_hit [] l.

Abbreviation IndexFlatL2 := (list vector).

Definition ntotal (xb : IndexFlatL2) : Z := Z.of_nat (length xb).

Definition add (xb : IndexFlatL2) (vs : list vector) : IndexFlatL2 := xb ++ vs.

(** [D, I = index.search(x, k)] for a single query [x]: the rows [D[0]]
    and [I[0]]. *)
Definition search (xb : IndexFlatL2) (x : vector) (k : Z)
    : result (list Q * list Z) :=
  if k <=? 0 then Raise AssertionError
  else
    let hits := imap (fun i v => (fvec_L2sqr x v, Z.of_nat i)) xb in
    let best := take (Z.to_nat k) (sort_hits hits) in
    let row := best ++ replicate (Z.to_nat k - length best)%nat (FLT_MAX, -1) in
    Ok (map fst row, map snd row).

End faiss.

(** ** Records of the retrieval service *)

(** The chunk dictionary: keys [text], [filename], [page_num], [chunk_idx],
    and, on search results, [relevance_score]. *)
Record ChunkData : Type := {
  text : string;
  filename : string;
  page_num : Z;
  chunk_idx : Z;
  relevance_score : option Q
}.

(** The page dictionary built by [extract_text_from_pdf]. *)
Module Page.
Record t : Type := {
  text : string;
  page_num : Z;
  filename : string
}.
End Page.

(** The manifest dictionary written to [metadata.json]. *)
Record Metadata : Type := {
  num_pdfs : Z;
  num_chunks : Z;
  pdf_files : list string;
  chunk_size : Z;
  embedding_model : string
}.

(** The outcome dictionary of [index_pdfs]. *)
Inductive IndexReport : Type :=
| Failure (message : string)
| Success (metadata : Metadata).

(** Chunk dictionaries are mutable objects: they live in a store and are
    reached through references.  A reference of a running program always
    points at an object; [deref] of any other one is an interpreter
    error. *)
Abbreviation loc := nat.
Abbreviation heap := (list ChunkData).

Definition alloc (h : heap) (c : ChunkData) : loc * heap :=
  (length h, h ++ [c]).

Definition deref (h : heap) (l : loc) : result ChunkData :=
  match h !! l with
  | Some c => Ok c
  | None => Raise SystemError
  end.

(** [d['relevance_score'] = score] on the object at [l]. *)
Definition set_relevance_score (score : Q) (c : ChunkData) : ChunkData :=
  {| text := text c; filename := filename c; page_num := page_num c;
     chunk_idx := chunk_idx c; relevance_score := Some score |}.

Definition store_relevance_score (h : heap) (l : loc) (score : Q) : heap :=
  match h !! l with
  | Some c => <[l := set_relevance_score score c]> h
  | None => h
  end.

(** A file of the database folder: absent, present but not loadable, or
    holding a value. *)
Inductive file (A : Type) : Type :=
| Missing
| Unreadable
| Stored (a : A).

Arguments Missing {A}.
Arguments Unreadable {A}.
Arguments Stored {A} a.

(** [faiss_index.bin], [chunks.pkl] and [metadata.json]. *)
Record Disk : Type := {
  index_path : file faiss.IndexFlatL2;
  chunks_path : file (list ChunkData);
  metadata_path : file Metadata
}.

(** A file that [glob("*.pdf")] found: its name and, when the reader can
    parse it, the extracted text of its pages in order. *)
Record PdfFile : Type := {
  name : string;
  page_texts : option (list string)
}.

(** The attributes [index], [chunks] and [metadata] of a [RAGSystem];
    [metadata] is [None] while it is the empty dictionary. *)
Record RAGSystem : Type := {
  index : option faiss.IndexFlatL2;
  chunks : list loc;
  metadata : option Metadata
}.

(** The service together with the object store, the database folder and
    the PDF files that [pdf_folder.glob("*.pdf")] lists. *)
Record World : Type := {
  self : RAGSystem;
  objects : heap;
  disk : Disk;
  pdf_folder : list PdfFile
}.

(** [RAGSystem.__init__] *)
Definition init : RAGSystem :=
  {| index := None; chunks := []; metadata := None |}.

Definition EMBEDDING_MODEL : string := "all-MiniLM-L6-v2".

(** The distance-to-similarity conversion of [search]. *)
Definition relevance (distance : Q) : Q := (1 / (1 + distance))%Q.

(** ** The operations of [RAGSystem] *)

(** [extract_text_from_pdf]: the pages whose text is not blank, numbered
    from 1; a file the reader cannot parse gives no page. *)
Definition extract_text_from_pdf (pdf_path : PdfFile) : list Page.t :=
  match page_texts pdf_path with
  | None => []
  | Some texts =>
      omap (fun it : Z * string =>
              let (i, text) := it in
              match strip text with
              | EmptyString => None
              | _ => Some {| Page.text := text; Page.page_num := i + 1;
                             Page.filename := name pdf_path |}
              end)
           (enumerate texts)
  end.

Section Service.

(** The sentence-embedding model: [self.model.encode]. *)
Variable encode : string -> faiss.vector.

(** The accumulators [all_chunks] and [all_embeddings] of [index_pdfs],
    with the object store. *)
Definition Acc : Type := (list loc * list faiss.vector * heap)%type.

(** Body of the loop over [enumerate(chunks)]. *)
Definition add_chunk (page_data : Page.t) (acc : Acc) (it : Z * string) : Acc :=
  let '(all_chunks, all_embeddings, h) := acc in
  let (idx, chunk) := it in
  let (chunk_data, h') :=
    alloc h {| text := chunk; filename := Page.filename page_data;
               page_num := Page.page_num page_data; chunk_idx := idx;
               relevance_score := None |} in
  (all_chunks ++ [chunk_data], all_embeddings ++ [encode chunk], h').

(** Body of the loop over [pages]; [chunk_text] is called with its default
    overlap. *)
Definition index_page (size : Z) (acc : Acc) (page_data : Page.t)
    : result Acc :=
  let* page_chunks := chunk_text (Page.text page_data) size DEFAULT_OVERLAP in
  Ok (fold_left (add_chunk page_data) (enumerate page_chunks) acc).

(** Body of the loop over [pdf_files]. *)
Definition index_pdf (size : Z) (acc : Acc) (pdf_path : PdfFile) : result Acc :=
  for_each (index_page size) (extract_text_from_pdf pdf_path) acc.

(** [pickle.dump(self.chunks, f)]: the dictionaries behind the references. *)
Definition pickled (h : heap) (refs : list loc) : list ChunkData :=
  omap (fun l => h !! l) refs.

(** [index_pdfs].  An exception leaves the service and the database folder
    as they were (the dictionaries built so far are unreachable). *)
Definition index_pdfs (w : World) (size : Z) : result IndexReport * World :=
  match pdf_folder w with
  | [] => (Ok (Failure "No PDFs found"), w)
  | pdfs =>
      match for_each (index_pdf size) pdfs ([], [], objects w) with
      | Raise e => (Raise e, w)
      | Ok ([], _, h) =>
          (Ok (Failure "No text extracted"),
           {| self := self w; objects := h; disk := disk w;
              pdf_folder := pdf_folder w |})
      | Ok (all_chunks, all_embeddings, h) =>
          let idx := faiss.add [] all_embeddings in
          let meta :=
            {| num_pdfs := Z.of_nat (length pdfs);
               num_chunks := Z.of_nat (length all_chunks);
               pdf_files := map name pdfs;
               chunk_size := size;
               embedding_model := EMBEDDING_MODEL |} in
          (Ok (Success meta),
           {| self := {| index := Some idx; chunks := all_chunks;
                         metadata := Some meta |};
              objects := h;
              disk := {| index_path := Stored idx;
                         chunks_path := Stored (pickled h all_chunks);
                         metadata_path := Stored meta |};
              pdf_folder := pdf_folder w |})
      end
  end.

(** [pickle.load]: every stored dictionary becomes a new object. *)
Definition unpickle (h : heap) (cs : list ChunkData) : list loc * heap :=
  (seq (length h) (length cs), h ++ cs).

(** [load_index]: each attribute is assigned as soon as its file is read;
    any exception is caught and reported as [False]. *)
Definition load_index (w : World) : bool * World :=
  match index_path (disk w) with
  | Missing => (false, w)
  | Unreadable => (false, w)
  | Stored idx =>
      let s1 := {| index := Some idx; chunks := chunks (self w);
                   metadata := metadata (self w) |} in
      match chunks_path (disk w) with
      | Stored cs =>
          let (refs, h) := unpickle (objects w) cs in
          let s2 := {| index := Some idx; chunks := refs;
                       metadata := metadata (self w) |} in
          match metadata_path (disk w) with
          | Stored meta =>
              (true,
               {| self := {| index := Some idx; chunks := refs;
                             metadata := Some meta |};
                  objects := h; disk := disk w; pdf_folder := pdf_folder w |})
          | _ =>
              (false, {| self := s2; objects := h; disk := disk w;
                         pdf_folder := pdf_folder w |})
          end
      | _ =>
          (false, {| self := s1; objects := objects w; disk := disk w;
                     pdf_folder := pdf_folder w |})
      end
  end.

(** Body of the loop over [zip(indices[0], distances[0])]: the guard, the
    copy of the stored dictionary, the score written into the copy. *)
Definition format_hit (stored : list loc) (acc : list loc * heap)
    (hit : Z * Q) : result (list loc * heap) :=
  let (results, h) := acc in
  let (idx, distance) := hit in
  if idx <? Z.of_nat (length stored) then
    let* src := getitem stored idx in
    let* c := deref h src in
    let (chunk_data, h1) := alloc h c in
    let h2 := store_relevance_score h1 chunk_data (relevance distance) in
    Ok (results ++ [chunk_data], h2)
  else Ok acc.

(** [search] once an index is resident. *)
Definition search_resident (w : World) (query : string) (top_k : Z)
    : result (list loc) * World :=
  match index (self w) with
  | None => (Raise AttributeError, w)
  | Some idx =>
      match faiss.search idx (encode query) top_k with
      | Raise e => (Raise e, w)
      | Ok (distances, indices) =>
          match for_each (format_hit (chunks (self w)))
                         (zip indices distances) ([], objects w) with
          | Raise e => (Raise e, w)
          | Ok (results, h) =>
              (Ok results,
               {| self := self w; objects := h; disk := disk w;
                  pdf_folder := pdf_folder w |})
          end
      end
  end.

(** [search]: the lazy load, then the query. *)
Definition search (w : World) (query : string) (top_k : Z)
    : result (list loc) * World :=
  match index (self w) with
  | None =>
      let (loaded, w1) := load_index w in
      if loaded then search_resident w1 query top_k else (Ok [], w1)
  | Some _ => search_resident w query top_k
  end.

(** A run of [search] calls, one after the other. *)
Fixpoint search_all (w : World) (calls : list (string * Z)) : World :=
  match calls with
  | [] => w
  | (query, top_k) :: rest => search_all (snd (search w query top_k)) rest
  end.

End Service.

(** ** The chunker as the specification words it

    Offsets [0, W-O, 2(W-O), ...] are taken until one meets or exceeds the
    number of words; the window at an offset is the next [W] words; a chunk
    is kept when its trimmed length exceeds 50.  Every step advances by at
    least one word, so [n] turns are enough for [n] words
    (see [spec_offsets_fuel]). *)

Fixpoint spec_offsets (fuel : nat) (offset step n : Z) : list Z :=
  match fuel with
  | O => []
  | S fuel' =>
      if n <=? offset then []
      else offset :: spec_offsets fuel' (offset + step) step n
  end.

Definition spec_window (words : list string) (W offset : Z) : list string :=
  take (Z.to_nat W) (drop (Z.to_nat offset) words).

Definition spec_keep (chunk : string) : bool := 50 <? len (strip chunk).

Definition spec_chunks (words : list string) (W O : Z) : list string :=
  List.filter spec_keep
    (map (fun offset => join " " (spec_window words W offset))
         (spec_offsets (length words) 0 (W - O) (Z.of_nat (length words)))).

(** ** Notions used to state the outcome of an indexing run *)

(** All pages that the extractor yields for the folder, in order. *)
Definition corpus_pages (pdfs : list PdfFile) : list Page.t :=
  flat_map extract_text_from_pdf pdfs.

(** The chunks of one page as [index_pdfs] asks for them. *)
Definition page_chunks (size : Z) (page_data : Page.t) : result (list string) :=
  chunk_text (Page.text page_data) size DEFAULT_OVERLAP.

(** No page of the folder gives a chunk. *)
Definition no_chunks (size : Z) (pdfs : list PdfFile) : Prop :=
  forall page_data, In page_data (corpus_pages pdfs) ->
    page_chunks size page_data = Ok [].

(** Number of chunks that the pages give. *)
Definition chunk_total (size : Z) (pages : list Page.t) : nat :=
  list_sum (map (fun page_data =>
                   match page_chunks size page_data with
                   | Ok l => length l
                   | Raise _ => O
                   end) pages).

(** Position [i] of [all_embeddings] is the embedding of the text of the
    dictionary that position [i] of [all_chunks] refers to. *)
Definition aligned (encode : string -> faiss.vector) (acc : Acc) : Prop :=
  let '(all_chunks, all_embeddings, h) := acc in
  length all_chunks = length all_embeddings /\
  forall (i : nat) (l : loc), all_chunks !! i = Some l ->
    exists c, h !! l = Some c /\ all_embeddings !! i = Some (encode (text c)).

(** ** Notions used to state what [search] returns *)

(** The dictionaries that the returned references point at. *)
Definition search_records (out : result (list loc) * World)
    : result (list ChunkData) :=
  match out with
  | (Ok results, w') => Ok (pickled (objects w') results)
  | (Raise e, _) => Raise e
  end.

(** [l] is a new object of [h], not one of the first [n], and is a copy,
    with a score written into it, of an object that [stored] refers to. *)
Definition scored_copy (n : nat) (stored : list loc) (h : heap) (l : loc)
    : Prop :=
  (n <= l)%nat /\
  exists (src : loc) (c : ChunkData) (score : Q),
    In src stored /\ h !! src = Some c /\
    h !! l = Some (set_relevance_score score c).

(** What the result loop maintains, from the store [h0] it starts with. *)
Definition loop_frame (h0 : heap) (stored : list loc)
    (acc : list loc * heap) : Prop :=
  (exists k, snd acc = h0 ++ k) /\
  Forall (scored_copy (length h0) stored (snd acc)) (fst acc).

(** Number of characters of [s] that are not whitespace. *)
Fixpoint solid_chars (s : string) : nat :=
  match s with
  | EmptyString => O
  | String c rest => if isspace c then solid_chars rest else S (solid_chars rest)
  end.

(** ** A small embedding model and corpus for concrete runs *)

Module Example.

(** One-dimensional embedding: the length of the text. *)
Definition encode (s : string) : faiss.vector :=
  [Z.of_nat (String.length s) # 1].

Definition chunk (t : string) (p : Z) : ChunkData :=
  {| text := t; filename := "a.pdf"; page_num := p; chunk_idx := 0;
     relevance_score := None |}.

Definition no_disk : Disk :=
  {| index_path := Missing; chunks_path := Missing;
     metadata_path := Missing |}.

Definition fresh (d : Disk) (pdfs : list PdfFile) : World :=
  {| self := init; objects := []; disk := d; pdf_folder := pdfs |}.

(** A service holding two chunks and their vectors. *)
Definition two_chunks : World :=
  {| self := {| index := Some [encode "alpha"; encode "betabeta"];
                chunks := [0%nat; 1%nat]; metadata := None |};
     objects := [chunk "alpha" 1; chunk "betabeta" 2];
     disk := no_disk; pdf_folder := [] |}.

(** A text of [n] one-letter words. *)
Definition words_text (n : nat) : string :=
  String.concat " " (repeat "w"%string n).

Definition sentence : string :=
  "the quick brown fox jumps over the lazy dog and keeps running far".

Definition one_pdf : list PdfFile :=
  [{| name := "a.pdf"; page_texts := Some [sentence; "short page"%string] |}].

(** A new service on the database folder [d]. *)
Definition restarted_on (d : Disk) : World := fresh d [].

(** A database folder whose chunk file is absent. *)
Definition disk_without_chunks : Disk :=
  {| index_path := Stored [encode "alpha"]; chunks_path := Missing;
     metadata_path := Missing |}.

(** A resident index without any vector. *)
Definition empty_index : World :=
  {| self := {| index := Some []; chunks := []; metadata := None |};
     objects := []; disk := no_disk; pdf_folder := [] |}.

Definition one_pdf_meta : Metadata :=
  {| num_pdfs := 1; num_chunks := 1; pdf_files := ["a.pdf"%string];
     chunk_size := 500; embedding_model := EMBEDDING_MODEL |}.

(** The world after indexing [one_pdf] with the default chunk size. *)
Definition indexed : World :=
  snd (index_pdfs encode (fresh no_disk one_pdf) DEFAULT_CHUNK_SIZE).

(** A new service on the database folder that [indexed] left. *)
Definition restarted : World := restarted_on (disk indexed).

End Example.

(** ** The rest of the service: formatting, readiness, the search tool *)

(** [str(n)] of an integer: its decimal numeral. *)
Definition str_of_int (n : Z) : string := NilEmpty.string_of_int (Z.to_int n).

(** The line feed. *)
Definition newline : string := String "010"%char EmptyString.

(** [t[:limit] + "..." if len(t) > limit else t] *)
Definition excerpt (limit : nat) (t : string) : string :=
  if Z.of_nat limit <? len t
  then (substring 0 limit t ++ "...")%string
  else t.

(** [enumerate(l, start)] *)
Definition enumerate_from {A} (start : Z) (l : list A) : list (Z * A) :=
  imap (fun i x => (start + Z.of_nat i, x)) l.

(** The citation of result number [i] in the style [citation_format]; the
    style names are compared as they are written. *)
Definition citation (citation_format : string) (i : Z) (result : ChunkData)
    : string :=
  let page := str_of_int (page_num result) in
  if String.eqb citation_format "IEEE" then
    ("[Local-" ++ str_of_int i ++ "] " ++ filename result
       ++ ", page " ++ page ++ ".")%string
  else if String.eqb citation_format "APA" then
    ("(Local Document: " ++ filename result ++ ", p. " ++ page ++ ")")%string
  else if String.eqb citation_format "Vancouver" then
    ("L" ++ str_of_int i ++ ". " ++ filename result
       ++ ". Page " ++ page ++ ".")%string
  else ("[" ++ filename result ++ ", p. " ++ page ++ "]")%string.

(** Body of the loop of [format_results_for_citation]. *)
Definition citation_entry (citation_format : string)
    (formatted : list string) (it : Z * ChunkData) : list string :=
  let (i, result) := it in
  let text_preview := excerpt 200 (text result) in
  formatted ++
  [(citation citation_format i result ++ newline
      ++ "Relevant excerpt: " ++ text_preview ++ newline)%string].

Definition NO_DOCUMENTS : string := "No relevant local documents found.".

(** [format_results_for_citation] *)
Definition format_results_for_citation (results : list ChunkData)
    (citation_format : string) : string :=
  match results with
  | [] => NO_DOCUMENTS
  | _ =>
      join newline
        (fold_left (citation_entry citation_format)
                   (enumerate_from 1 results) [])
  end.

(** [check_rag_ready]: [folder] is [None] when the PDF folder does not
    exist and otherwise lists its PDF files; the index file exists unless
    it is [Missing]. *)
Definition check_rag_ready (pdf_folder_name : string)
    (folder : option (list PdfFile)) (d : Disk) : bool * string :=
  match folder with
  | None => (false, ("PDF folder not found: " ++ pdf_folder_name)%string)
  | Some [] => (false, ("No PDF files found in " ++ pdf_folder_name)%string)
  | Some found =>
      match index_path d with
      | Missing =>
          (false,
           "RAG index not found. Run 'python rag_setup.py' first."%string)
      | _ =>
          (true, ("RAG ready: " ++ str_of_int (Z.of_nat (length found))
                    ++ " PDFs indexed")%string)
      end
  end.



Section Tool.

Variable encode : string -> faiss.vector.

(** [f"{score:.2f}"], the two-decimal rendering of a score. *)
Variable format_2f : Q -> string.

(** [str(e)], the message of an exception. *)
Variable str_exn : exn -> string.



End Tool.

(** ** Notions used to state more properties *)

(** A word: not empty and without whitespace. *)
Fixpoint spaceless (s : string) : bool :=
  match s with
  | EmptyString => true
  | String c rest => negb (isspace c) && spaceless rest
  end.

Definition is_word (s : string) : Prop :=
  s <> EmptyString /\ spaceless s = true.

(** Every reference of the chunk array points at an object. *)
Definition well_formed (w : World) : Prop :=
  Forall (fun l => (l < length (objects w))%nat) (chunks (self w)).

(** The chunk records of the service, in the order of the chunk array. *)
Definition stored_records (w : World) : list ChunkData :=
  pickled (objects w) (chunks (self w)).

(** The loop body of [search] read on records instead of references. *)
Definition scored_hit (cs : list ChunkData) (acc : list ChunkData)
    (hit : Z * Q) : result (list ChunkData) :=
  let (idx, distance) := hit in
  if idx <? Z.of_nat (length cs) then
    let* c := getitem cs idx in
    Ok (acc ++ [set_relevance_score (relevance distance) c])
  else Ok acc.

(** The PDF files that the reader can parse. *)
Definition readable (pdf_path : PdfFile) : bool :=
  match page_texts pdf_path with
  | Some _ => true
  | None => false
  end.

(** The record behind [l] was cut from a page of [pages]: it names the
    file and the page, and its text is the chunk of that page at the
    position [chunk_idx]. *)
Definition traced (size : Z) (pages : list Page.t) (h : heap) (l : loc)
    : Prop :=
  exists (c : ChunkData) (page_data : Page.t) (cut : list string),
    h !! l = Some c /\ In page_data pages /\
    filename c = Page.filename page_data /\
    page_num c = Page.page_num page_data /\
    page_chunks size page_data = Ok cut /\
    0 <= chunk_idx c /\
    cut !! Z.to_nat (chunk_idx c) = Some (text c) /\
    relevance_score c = None.

(** The accumulators of [index_pdfs] after a run from the store [h0]: the
    new records [k] follow [h0], the references are their positions and
    the embeddings are those of their texts. *)
Definition laid_out (encode : string -> faiss.vector) (h0 : heap)
    (k : list ChunkData) (acc : Acc) : Prop :=
  let '(all_chunks, all_embeddings, h) := acc in
  h = h0 ++ k /\
  all_chunks = seq (length h0) (length k) /\
  all_embeddings = map (fun c => encode (text c)) k.

(** The world [w] with another PDF folder. *)
Definition with_pdf_folder (w : World) (pdfs : list PdfFile) : World :=
  {| self := self w; objects := objects w; disk := disk w;
     pdf_folder := pdfs |}.

(** A new service ([RAGSystem()]) in a program whose store is [objs], on
    the database folder [d]. *)
Definition started (objs : heap) (d : Disk) (pdfs : list PdfFile) : World :=
  {| self := init; objects := objs; disk := d; pdf_folder := pdfs |}.

(** The chunk record that [index_pdfs] builds for chunk number [fst it]
    of a page. *)
Definition record_of (page_data : Page.t) (it : Z * string) : ChunkData :=
  {| text := snd it; filename := Page.filename page_data;
     page_num := Page.page_num page_data; chunk_idx := fst it;
     relevance_score := None |}.

(** The records of the chunks of one page, in order. *)
Definition page_records (size : Z) (page_data : Page.t) : list ChunkData :=
  match page_chunks size page_data with
  | Ok cut => map (record_of page_data) (enumerate cut)
  | Raise _ => []
  end.

(** The records of all chunks of all pages of the folder, in order. *)
Definition corpus_records (size : Z) (pdfs : list PdfFile) : list ChunkData :=
  flat_map (page_records size) (corpus_pages pdfs).

(** * Properties *)

(** ** Python primitives *)

Section RangeFacts.

Variables (n step : Z).
Hypothesis step_pos : 0 < step.

Lemma range_length_next (d : Z) :
  0 < d ->
  Z.to_nat (range_length 0 d step)
  = S (Z.to_nat (range_length 0 (d - step) step)).
Proof using step_pos.
  intros Hd. unfold range_length. rewrite !Z.sub_0_r.
  destruct (Z.ltb_spec 0 step) as [_|]; [|lia].
  destruct (Z.ltb_spec 0 d) as [_|]; [|lia].
  destruct (Z.ltb_spec 0 (d - step)) as [Hlt|Hge].
  - replace (d - step - 1) with (d - 1 + (-1) * step) by lia.
    rewrite Z.div_add by lia.
    assert (1 <= (d - 1) / step) by (apply Z.div_le_lower_bound; lia).
    lia.
  - rewrite Z.div_small by lia. reflexivity.
Qed.

Lemma range_length_none (d : Z) : d <= 0 -> range_length 0 d step = 0.
Proof using step_pos.
  intros Hd. unfold range_length.
  destruct (Z.ltb_spec 0 step) as [_|]; [|lia].
  destruct (Z.ltb_spec 0 d); [lia|reflexivity].
Qed.

Lemma spec_offsets_progression fuel offset :
  (Z.to_nat (n - offset) <= fuel)%nat ->
  spec_offsets fuel offset step n =
  map (fun k => offset + Z.of_nat k * step)
      (seq 0 (Z.to_nat (range_length 0 (n - offset) step))).
Proof using step_pos.
  revert offset. induction fuel as [|fuel IH]; intros offset Hfuel.
  - rewrite range_length_none by lia. reflexivity.
  - cbn [spec_offsets]. destruct (Z.leb_spec n offset) as [Hle|Hlt].
    + rewrite range_length_none by lia. reflexivity.
    + rewrite range_length_next by lia. cbn [seq map].
      f_equal; [lia|].
      rewrite IH by lia.
      replace (n - (offset + step)) with (n - offset - step) by lia.
      rewrite <- seq_shift, map_map.
      apply map_ext. intros k. lia.
Qed.

End RangeFacts.

(** More turns than words change nothing: the offsets stop because they
    reach the number of words, never because the turns run out. *)
Lemma spec_offsets_fuel (fuel : nat) (step n : Z) :
  0 < step -> (Z.to_nat n <= fuel)%nat ->
  spec_offsets fuel 0 step n = spec_offsets (Z.to_nat n) 0 step n.
Proof.
  intros Hs Hf.
  rewrite !spec_offsets_progression by (try assumption; lia).
  reflexivity.
Qed.

Lemma range_forward (n step : Z) :
  0 < step -> 0 <= n ->
  range 0 n step = Ok (spec_offsets (Z.to_nat n) 0 step n).
Proof.
  intros Hs Hn. unfold range.
  destruct (Z.eqb_spec step 0); [lia|].
  rewrite spec_offsets_progression by (try assumption; lia).
  rewrite Z.sub_0_r. f_equal.
Qed.

Lemma range_zero_step (start stop : Z) : range start stop 0 = Raise ValueError.
Proof. reflexivity. Qed.

Lemma range_backward (n step : Z) : step < 0 -> 0 <= n -> range 0 n step = Ok [].
Proof.
  intros Hs Hn. unfold range, range_length.
  destruct (Z.eqb_spec step 0); [lia|].
  destruct (Z.ltb_spec 0 step); [lia|].
  destruct (Z.ltb_spec n 0); [lia|]. reflexivity.
Qed.

Lemma spec_offsets_bounds fuel offset step n x :
  0 < step -> 0 <= offset ->
  In x (spec_offsets fuel offset step n) -> 0 <= x < n.
Proof.
  intros Hs. revert offset. induction fuel as [|fuel IH]; intros offset Ho; cbn.
  - intros [].
  - destruct (Z.leb_spec n offset); cbn; [intros []|].
    intros [<-|Hin]; [lia|]. apply IH in Hin; lia.
Qed.

(** Inside the list, a slice of [W >= 0] items from offset [i] is the next
    [W] items. *)
Lemma slice_window {A} (l : list A) (i W : Z) :
  0 <= i < Z.of_nat (length l) -> 0 <= W ->
  slice l i (i + W) = take (Z.to_nat W) (drop (Z.to_nat i) l).
Proof.
  intros Hi HW. unfold slice, clamp.
  destruct (Z.ltb_spec i 0); [lia|].
  destruct (Z.ltb_spec (i + W) 0); [lia|].
  rewrite (Z.min_l i) by lia.
  destruct (Z.le_gt_cases (i + W) (Z.of_nat (length l))).
  - rewrite Z.min_l by lia. f_equal. lia.
  - rewrite Z.min_r by lia.
    rewrite !take_ge; [reflexivity| |]; rewrite length_drop; lia.
Qed.

(** ** Words and whitespace *)

Lemma solid_chars_append (a b : string) :
  solid_chars (String.append a b) = (solid_chars a + solid_chars b)%nat.
Proof.
  induction a as [|c a IH]; cbn; [reflexivity|].
  destruct (isspace c); rewrite IH; reflexivity.
Qed.

Lemma solid_chars_length (s : string) : (solid_chars s <= String.length s)%nat.
Proof.
  induction s as [|c s IH]; cbn; [lia|]. destruct (isspace c); lia.
Qed.

Lemma solid_chars_lstrip (s : string) : solid_chars (lstrip s) = solid_chars s.
Proof.
  induction s as [|c s IH]; cbn; [reflexivity|].
  destruct (isspace c) eqn:Hc; [exact IH|]. cbn. rewrite Hc. reflexivity.
Qed.

Lemma solid_chars_rstrip (s : string) : solid_chars (rstrip s) = solid_chars s.
Proof.
  induction s as [|c s IH]; cbn; [reflexivity|].
  destruct (rstrip s) as [|k kept] eqn:Hr.
  - cbn in IH. destruct (isspace c) eqn:Hc; cbn; rewrite ?Hc; rewrite <- IH; reflexivity.
  - cbn [solid_chars] in *. destruct (isspace c); rewrite IH; reflexivity.
Qed.

Lemma solid_chars_strip (s : string) : solid_chars (strip s) = solid_chars s.
Proof. unfold strip. rewrite solid_chars_rstrip. apply solid_chars_lstrip. Qed.

(** Every word of [split] holds a character that is not whitespace. *)
Lemma split_from_solid (s word : string) :
  (word = EmptyString \/ (1 <= solid_chars word)%nat) ->
  Forall (fun w => (1 <= solid_chars w)%nat) (split_from word s).
Proof.
  revert word. induction s as [|c s IH]; intros word Hw; cbn.
  - destruct word; [constructor|].
    destruct Hw as [Hw|Hw]; [discriminate|]. repeat constructor. exact Hw.
  - destruct (isspace c) eqn:Hc.
    + destruct word.
      * apply IH. left. reflexivity.
      * destruct Hw as [Hw|Hw]; [discriminate|].
        constructor; [exact Hw|]. apply IH. left. reflexivity.
    + apply IH. right. rewrite solid_chars_append. cbn. rewrite Hc. lia.
Qed.

Lemma split_solid (s : string) :
  Forall (fun w => (1 <= solid_chars w)%nat) (split s).
Proof. apply split_from_solid. left. reflexivity. Qed.

Lemma join_solid (ws : list string) :
  Forall (fun w => (1 <= solid_chars w)%nat) ws ->
  (length ws <= solid_chars (join " " ws))%nat.
Proof.
  unfold join. induction 1 as [|w ws Hw Hws IH]; cbn; [lia|].
  destruct ws as [|w' ws']; [cbn; lia|].
  rewrite !solid_chars_append. cbn [length] in *. cbn [solid_chars].
  change (isspace " ") with true. cbn iota. lia.
Qed.

(** A window of more than 50 words always passes the length floor. *)
Lemma long_window_kept (ws : list string) :
  Forall (fun w => (1 <= solid_chars w)%nat) ws ->
  (51 <= length ws)%nat -> spec_keep (join " " ws) = true.
Proof.
  intros Hs Hl. unfold spec_keep, len.
  apply Z.ltb_lt.
  pose proof (join_solid ws Hs).
  pose proof (solid_chars_length (strip (join " " ws))).
  rewrite solid_chars_strip in *. lia.
Qed.

(** ** The chunker *)

(** The loop of [chunk_text] keeps, in order, the windows that pass the
    floor. *)
Lemma chunk_loop (words : list string) (size : Z) (offsets : list Z)
    (acc : list string) :
  fold_left (chunk_step words size) offsets acc =
  acc ++ List.filter spec_keep
           (map (fun i => join " " (slice words i (i + size))) offsets).
Proof.
  revert acc. induction offsets as [|i offsets IH]; intros acc; cbn.
  - rewrite app_nil_r. reflexivity.
  - rewrite IH. cbn [map List.filter].
    set (chunk := join " " (slice words i (i + size))).
    change (chunk_step words size acc i)
      with (if spec_keep chunk then acc ++ [chunk] else acc).
    destruct (spec_keep chunk); [rewrite <- app_assoc|]; reflexivity.
Qed.

Lemma chunk_text_forward (text : string) (W O : Z) :
  O < W ->
  chunk_text text W O =
  Ok (List.filter spec_keep
        (map (fun i => join " " (slice (split text) i (i + W)))
             (spec_offsets (length (split text)) 0 (W - O)
                (Z.of_nat (length (split text)))))).
Proof.
  intros HO. unfold chunk_text.
  rewrite range_forward by lia. rewrite Nat2Z.id. cbn [Py.bind].
  rewrite chunk_loop. reflexivity.
Qed.

Lemma chunk_text_spec (text : string) (W O : Z) :
  0 <= W -> O < W -> chunk_text text W O = Ok (spec_chunks (split text) W O).
Proof.
  intros HW HO. rewrite chunk_text_forward by assumption.
  unfold spec_chunks, spec_window. do 2 f_equal.
  apply map_ext_in. intros i Hi.
  apply spec_offsets_bounds in Hi; [|lia|lia].
  rewrite slice_window by lia. reflexivity.
Qed.

Lemma chunk_text_zero_step (text : string) (W : Z) :
  chunk_text text W W = Raise ValueError.
Proof. unfold chunk_text. rewrite Z.sub_diag. reflexivity. Qed.

Lemma chunk_text_backward (text : string) (W O : Z) :
  W < O -> chunk_text text W O = Ok [].
Proof.
  intros H. unfold chunk_text. rewrite range_backward by lia. reflexivity.
Qed.

(** A text of at most one step of words has a single window. *)
Lemma chunk_text_one_step (text : string) (W O : Z) :
  O < W -> Z.of_nat (length (split text)) <= W - O ->
  chunk_text text W O =
  Ok (match split text with
      | [] => []
      | _ => List.filter spec_keep [join " " (slice (split text) 0 W)]
      end).
Proof.
  intros HO Hn. rewrite chunk_text_forward by assumption.
  destruct (split text) as [|w ws] eqn:Hsp; [reflexivity|].
  set (n := length (w :: ws)) in *.
  assert (Hoff : spec_offsets n 0 (W - O) (Z.of_nat n) = [0]).
  { subst n. cbn [length spec_offsets] in *.
    destruct (Z.leb_spec (Z.of_nat (S (length ws))) 0); [lia|].
    f_equal. destruct (length ws); cbn; [reflexivity|].
    destruct (Z.leb_spec (Z.of_nat (S (S n))) (0 + (W - O))); [reflexivity|lia]. }
  rewrite Hoff. reflexivity.
Qed.

(** C3.  For a chunk size [W >= 0] and an overlap [O < W], [chunk_text]
    returns exactly the chunks the specification describes: the [W]-word
    windows at offsets [0, W-O, 2(W-O), ...] below the number of words,
    joined by spaces, those of trimmed length above 50 being kept.  In
    particular a text of 1200 words, with [W = 500] and [O = 50], gives the
    three chunks at offsets 0, 450 and 900, the last of 300 words. *)
Theorem chunk_text_windows :
  (forall (text : string) (W O : Z),
      0 <= W -> O < W ->
      chunk_text text W O = Ok (spec_chunks (split text) W O)) /\
  (forall text : string,
      length (split text) = 1200%nat ->
      chunk_text text 500 50 =
        Ok [join " " (spec_window (split text) 500 0);
            join " " (spec_window (split text) 500 450);
            join " " (spec_window (split text) 500 900)] /\
      length (spec_window (split text) 500 900) = 300%nat).
Proof.
  split; [exact chunk_text_spec|].
  intros text Hn.
  assert (Hlen : forall off : Z, 0 <= off <= 900 ->
            (51 <= length (spec_window (split text) 500 off))%nat).
  { intros off Hoff. unfold spec_window.
    rewrite length_take, length_drop, Hn. lia. }
  assert (Hkeep : forall off : Z, 0 <= off <= 900 ->
            spec_keep (join " " (spec_window (split text) 500 off)) = true).
  { intros off Hoff. apply long_window_kept; [|auto].
    unfold spec_window. apply Forall_take, Forall_drop, split_solid. }
  split.
  - rewrite chunk_text_spec by lia. unfold spec_chunks. rewrite Hn.
    replace (spec_offsets 1200 0 (500 - 50) (Z.of_nat 1200))
      with [0; 450; 900] by (vm_compute; reflexivity).
    cbn [map List.filter]. rewrite !Hkeep by lia. reflexivity.
  - unfold spec_window. rewrite length_take, length_drop, Hn. lia.
Qed.

Lemma chunk_text_windows_witness :
  chunk_text Example.sentence 20 5 =
    Ok (spec_chunks (split Example.sentence) 20 5) /\
  length (spec_window (split (Example.words_text 1200)) 500 900) = 300%nat.
Proof.
  split.
  - apply (proj1 chunk_text_windows); lia.
  - apply (proj2 chunk_text_windows). vm_compute. reflexivity.
Defined.

(** C6, the claim as stated fails: 499 one-letter words are fewer than the
    chunk size 500, yet with overlap 50 the window at offset 450 holds 49
    words (97 characters) and is kept as a second chunk. *)
Lemma chunk_text_short_text_two_chunks :
  Z.of_nat (length (split (Example.words_text 499))) < 500 /\
  50 < 500 /\
  ~ (forall l, chunk_text (Example.words_text 499) 500 50 = Ok l ->
               (length l <= 1)%nat).
Proof.
  split; [vm_compute; reflexivity|]. split; [lia|].
  intros H.
  assert (E : exists a b, chunk_text (Example.words_text 499) 500 50 = Ok [a; b])
    by (vm_compute; eauto).
  destruct E as (a & b & E). apply H in E. cbn in E. lia.
Qed.

(** C6, amended.  For an overlap [O < W] and a text of at most [W - O]
    words (one step of the chunker), [chunk_text] yields at most one
    chunk, and none when the single window fails the 50-character floor. *)
Theorem chunk_text_at_most_one (text : string) (W O : Z) :
  O < W -> Z.of_nat (length (split text)) <= W - O ->
  exists l, chunk_text text W O = Ok l /\ (length l <= 1)%nat /\
    (spec_keep (join " " (slice (split text) 0 W)) = false -> l = []).
Proof.
  intros HO Hn. rewrite chunk_text_one_step by assumption.
  eexists. split; [reflexivity|].
  destruct (split text); [cbn; split; [lia|reflexivity]|].
  cbn [List.filter].
  destruct (spec_keep _); cbn; split; (lia || congruence || reflexivity).
Qed.

Lemma chunk_text_at_most_one_witness :
  exists l, chunk_text Example.sentence 500 50 = Ok l /\ (length l <= 1)%nat /\
    (spec_keep (join " " (slice (split Example.sentence) 0 500)) = false ->
     l = []).
Proof.
  apply (chunk_text_at_most_one Example.sentence 500 50).
  - lia.
  - vm_compute. discriminate.
Defined.

(** ** Loops that may raise *)

Lemma for_each_app {A B} (body : B -> A -> result B) (l1 l2 : list A) (acc : B) :
  for_each body (l1 ++ l2) acc =
  Py.bind (for_each body l1 acc) (for_each body l2).
Proof.
  revert acc. induction l1 as [|x l1 IH]; intros acc; cbn; [reflexivity|].
  destruct (body acc x); [apply IH|reflexivity].
Qed.

(** A loop over the items of a nested loop is one loop over all items. *)
Lemma for_each_flat {A B C} (body : B -> A -> result B) (items : C -> list A)
    (l : list C) (acc : B) :
  for_each (fun acc' c => for_each body (items c) acc') l acc =
  for_each body (flat_map items l) acc.
Proof.
  revert acc. induction l as [|c l IH]; intros acc; cbn; [reflexivity|].
  rewrite for_each_app. destruct (for_each body (items c) acc); cbn; auto.
Qed.

Lemma for_each_invariant {A B} (body : B -> A -> result B) (I : B -> Prop) :
  (forall acc x acc', I acc -> body acc x = Ok acc' -> I acc') ->
  forall l acc acc', I acc -> for_each body l acc = Ok acc' -> I acc'.
Proof.
  intros Hbody. induction l as [|x l IH]; intros acc acc' HI; cbn.
  - intros [= <-]. exact HI.
  - destruct (body acc x) eqn:Hb; [|discriminate]. eauto.
Qed.

(** ** Indexing *)

Lemma chunk_text_total (text : string) (W O : Z) :
  W <> O -> exists l, chunk_text text W O = Ok l.
Proof.
  intros H. destruct (Z.lt_trichotomy W O) as [Hlt|[Heq|Hgt]]; [|lia|].
  - rewrite chunk_text_backward by assumption. eauto.
  - rewrite chunk_text_forward by assumption. eauto.
Qed.

Lemma chunk_total_cons (size : Z) (p : Page.t) (pages : list Page.t) :
  chunk_total size (p :: pages) =
  (match page_chunks size p with Ok l => length l | Raise _ => O end
   + chunk_total size pages)%nat.
Proof. reflexivity. Qed.

Section IndexFacts.

Variable encode : string -> faiss.vector.

Lemma add_chunk_aligned page_data acc it :
  aligned encode acc -> aligned encode (add_chunk encode page_data acc it).
Proof.
  destruct acc as [[cs es] h], it as [idx chunk]. cbn.
  intros [Hlen Hal]. split.
  - rewrite !length_app. cbn. lia.
  - intros i l Hi. apply lookup_app_Some in Hi as [Hi|[Hge Hi]].
    + destruct (Hal i l Hi) as (c & Hc & He). exists c. split.
      * apply lookup_app_l_Some. exact Hc.
      * apply lookup_app_l_Some. exact He.
    + apply list_lookup_singleton_Some in Hi as [Hi <-].
      eexists. split.
      * rewrite lookup_app_r by lia. rewrite Nat.sub_diag. reflexivity.
      * rewrite lookup_app_r by lia.
        replace (i - length es)%nat with 0%nat by lia. reflexivity.
Qed.

Lemma add_chunks_aligned page_data items acc :
  aligned encode acc -> aligned encode (fold_left (add_chunk encode page_data) items acc).
Proof.
  revert acc. induction items as [|it items IH]; intros acc H; cbn; [exact H|].
  apply IH, add_chunk_aligned, H.
Qed.

Lemma add_chunks_length page_data items acc :
  length (fst (fst (fold_left (add_chunk encode page_data) items acc))) =
  (length (fst (fst acc)) + length items)%nat.
Proof.
  revert acc. induction items as [|[idx chunk] items IH]; intros acc; cbn.
  - lia.
  - rewrite IH. destruct acc as [[cs es] h]. cbn. rewrite length_app. cbn. lia.
Qed.

Lemma index_page_aligned size acc page_data acc' :
  aligned encode acc -> index_page encode size acc page_data = Ok acc' -> aligned encode acc'.
Proof.
  unfold index_page. intros H.
  destruct (chunk_text _ _ _); cbn; [|discriminate].
  intros [= <-]. apply add_chunks_aligned, H.
Qed.

Lemma index_pdfs_loop_flat size pdfs acc :
  for_each (index_pdf encode size) pdfs acc =
  for_each (index_page encode size) (corpus_pages pdfs) acc.
Proof. unfold index_pdf, corpus_pages. apply for_each_flat. Qed.

(** With a step other than zero the loop ends normally and has appended
    one reference per chunk. *)
Lemma index_pages_total size pages acc :
  size <> DEFAULT_OVERLAP ->
  exists acc', for_each (index_page encode size) pages acc = Ok acc' /\
    length (fst (fst acc')) =
    (length (fst (fst acc)) + chunk_total size pages)%nat.
Proof.
  intros Hs. revert acc. induction pages as [|p pages IH]; intros acc.
  - exists acc. cbn. split; [reflexivity|]. unfold chunk_total. cbn. lia.
  - cbn [for_each]. unfold index_page at 1.
    destruct (chunk_text_total (Page.text p) size DEFAULT_OVERLAP Hs) as [l Hl].
    rewrite Hl. cbn [Py.bind].
    destruct (IH (fold_left (add_chunk encode p) (enumerate l) acc))
      as (acc' & Hrun & Hlen).
    exists acc'. split; [exact Hrun|].
    rewrite Hlen, add_chunks_length, chunk_total_cons.
    unfold page_chunks. rewrite Hl.
    unfold enumerate. rewrite length_imap. lia.
Qed.

(** Pages without chunks leave the accumulators as they are. *)
Lemma index_pages_no_chunks size pages acc :
  (forall p, In p pages -> page_chunks size p = Ok []) ->
  for_each (index_page encode size) pages acc = Ok acc.
Proof.
  induction pages as [|p pages IH]; intros H; cbn; [reflexivity|].
  unfold index_page at 1. unfold page_chunks in H.
  rewrite (H p) by (left; reflexivity). cbn.
  apply IH. intros q Hq. apply H. right. exact Hq.
Qed.

(** With a zero step the first page already raises. *)
Lemma index_pages_zero_step pages acc :
  pages <> [] ->
  for_each (index_page encode DEFAULT_OVERLAP) pages acc = Raise ValueError.
Proof.
  destruct pages as [|p pages]; [congruence|]. intros _. cbn.
  unfold index_page. rewrite chunk_text_zero_step. reflexivity.
Qed.

Lemma chunk_total_zero size pages :
  size <> DEFAULT_OVERLAP ->
  chunk_total size pages = 0%nat <->
  (forall p, In p pages -> page_chunks size p = Ok []).
Proof.
  intros Hs. induction pages as [|p pages IH].
  - split; [intros _ q []|reflexivity].
  - destruct (chunk_text_total (Page.text p) size DEFAULT_OVERLAP Hs) as [l Hl].
    rewrite chunk_total_cons. unfold page_chunks at 1. rewrite Hl. split.
    + intros H0 q [<-|Hq].
      * unfold page_chunks. rewrite Hl. destruct l; [reflexivity|cbn in H0; lia].
      * apply IH; [lia|exact Hq].
    + intros H.
      assert (l = []) as ->.
      { specialize (H p (or_introl eq_refl)). unfold page_chunks in H.
        congruence. }
      cbn. apply IH. intros q Hq. apply H. right. exact Hq.
Qed.

End IndexFacts.

Section IndexRun.

Variable encode : string -> faiss.vector.

(** The loop of [index_pdfs], started from empty accumulators, keeps the
    two arrays aligned. *)
Lemma index_pdfs_loop_aligned size pdfs h0 acc :
  for_each (index_pdf encode size) pdfs ([], [], h0) = Ok acc ->
  aligned encode acc.
Proof.
  rewrite index_pdfs_loop_flat.
  apply (for_each_invariant _ (aligned encode)).
  - intros a x a' Ha Hx. exact (index_page_aligned encode size a x a' Ha Hx).
  - split; [reflexivity|]. intros i l Hi. rewrite lookup_nil in Hi. discriminate.
Qed.

(** What a run returns, case by case. *)
Lemma index_pdfs_no_pdfs (w : World) size :
  pdf_folder w = [] ->
  index_pdfs encode w size = (Ok (Failure "No PDFs found"), w).
Proof. unfold index_pdfs. intros ->. reflexivity. Qed.

Lemma index_pdfs_no_text (w : World) size :
  pdf_folder w <> [] -> no_chunks size (pdf_folder w) ->
  index_pdfs encode w size = (Ok (Failure "No text extracted"), w).
Proof.
  unfold index_pdfs, no_chunks. intros Hne Hno.
  destruct (pdf_folder w) as [|f fs] eqn:Hf; [congruence|].
  rewrite index_pdfs_loop_flat, index_pages_no_chunks by exact Hno.
  destruct w; cbn in *. rewrite Hf. reflexivity.
Qed.

Lemma index_pdfs_zero_step (w : World) :
  corpus_pages (pdf_folder w) <> [] ->
  index_pdfs encode w DEFAULT_OVERLAP = (Raise ValueError, w).
Proof.
  unfold index_pdfs. intros Hp.
  destruct (pdf_folder w) as [|f fs] eqn:Hf; [cbn in Hp; congruence|].
  rewrite index_pdfs_loop_flat, index_pages_zero_step by exact Hp.
  reflexivity.
Qed.

Lemma index_pdfs_success (w : World) size :
  size <> DEFAULT_OVERLAP -> pdf_folder w <> [] ->
  ~ no_chunks size (pdf_folder w) ->
  exists all_chunks all_embeddings h,
    for_each (index_pdf encode size) (pdf_folder w) ([], [], objects w)
      = Ok (all_chunks, all_embeddings, h) /\
    all_chunks <> [] /\
    index_pdfs encode w size =
      (let meta := {| num_pdfs := Z.of_nat (length (pdf_folder w));
                      num_chunks := Z.of_nat (length all_chunks);
                      pdf_files := map name (pdf_folder w);
                      chunk_size := size;
                      embedding_model := EMBEDDING_MODEL |} in
       (Ok (Success meta),
        {| self := {| index := Some all_embeddings; chunks := all_chunks;
                      metadata := Some meta |};
           objects := h;
           disk := {| index_path := Stored all_embeddings;
                      chunks_path := Stored (pickled h all_chunks);
                      metadata_path := Stored meta |};
           pdf_folder := pdf_folder w |})).
Proof.
  intros Hs Hne Hsome.
  destruct (index_pages_total encode size (corpus_pages (pdf_folder w))
              ([], [], objects w) Hs) as ([[cs es] h] & Hrun & Hlen).
  rewrite <- index_pdfs_loop_flat in Hrun.
  exists cs, es, h. split; [exact Hrun|].
  assert (Hcs : cs <> []).
  { intros ->. cbn in Hlen. apply Hsome.
    pose proof (chunk_total_zero size (corpus_pages (pdf_folder w)) Hs)
      as [Hzero _].
    exact (Hzero (eq_sym Hlen)). }
  split; [exact Hcs|].
  unfold index_pdfs.
  destruct (pdf_folder w) as [|f fs] eqn:Hf; [congruence|].
  rewrite Hrun. destruct cs; [congruence|]. reflexivity.
Qed.

End IndexRun.

(** C2.  After a successful [index_pdfs] the service holds an index with
    as many vectors as there are chunk records (the number the manifest
    reports), and the vector at each position is the embedding of the text
    of the chunk record at that position. *)
Theorem index_pdfs_alignment (encode : string -> faiss.vector)
    (w w' : World) (size : Z) (meta : Metadata) :
  index_pdfs encode w size = (Ok (Success meta), w') ->
  exists idx : faiss.IndexFlatL2,
    index (self w') = Some idx /\
    faiss.ntotal idx = Z.of_nat (length (chunks (self w'))) /\
    num_chunks meta = faiss.ntotal idx /\
    forall (i : nat) (l : loc), chunks (self w') !! i = Some l ->
      exists c, objects w' !! l = Some c /\ idx !! i = Some (encode (text c)).
Proof.
  unfold index_pdfs.
  destruct (pdf_folder w) as [|f fs] eqn:Hf; [discriminate|].
  destruct (for_each _ _ _) as [[[cs es] h]|e] eqn:Hrun; [|discriminate].
  apply index_pdfs_loop_aligned in Hrun. destruct Hrun as [Hlen Hal].
  destruct cs as [|l0 cs]; [discriminate|].
  intros [= <- <-]. cbn [self index chunks objects num_chunks].
  exists es. unfold faiss.ntotal, faiss.add. cbn [app].
  split; [reflexivity|].
  split; [rewrite <- Hlen; reflexivity|].
  split; [rewrite <- Hlen; reflexivity|].
  exact Hal.
Qed.

Lemma index_pdfs_alignment_witness :
  exists idx : faiss.IndexFlatL2,
    index (self Example.indexed) = Some idx /\
    faiss.ntotal idx = Z.of_nat (length (chunks (self Example.indexed))) /\
    num_chunks Example.one_pdf_meta = faiss.ntotal idx /\
    forall (i : nat) (l : loc), chunks (self Example.indexed) !! i = Some l ->
      exists c, objects Example.indexed !! l = Some c /\
                idx !! i = Some (Example.encode (text c)).
Proof.
  apply (index_pdfs_alignment Example.encode
           (Example.fresh Example.no_disk Example.one_pdf)
           Example.indexed 500 Example.one_pdf_meta).
  vm_compute. reflexivity.
Defined.

Lemma no_chunks_below_overlap (size : Z) (pdfs : list PdfFile) :
  size < DEFAULT_OVERLAP -> no_chunks size pdfs.
Proof.
  intros Hs p _. unfold page_chunks. apply chunk_text_backward. exact Hs.
Qed.

Lemma no_chunks_zero_step (pdfs : list PdfFile) :
  no_chunks DEFAULT_OVERLAP pdfs <-> corpus_pages pdfs = [].
Proof.
  unfold no_chunks. split.
  - destruct (corpus_pages pdfs) as [|p ps]; [reflexivity|].
    intros H. specialize (H p (or_introl eq_refl)).
    unfold page_chunks in H. rewrite chunk_text_zero_step in H. discriminate.
  - intros -> p [].
Qed.

Lemma no_chunks_dec (size : Z) (pdfs : list PdfFile) :
  no_chunks size pdfs \/ ~ no_chunks size pdfs.
Proof.
  destruct (Z.eq_dec size DEFAULT_OVERLAP) as [->|Hs].
  - rewrite no_chunks_zero_step. destruct (corpus_pages pdfs); [left|right]; congruence.
  - unfold no_chunks. rewrite <- (chunk_total_zero size _ Hs).
    destruct (chunk_total size (corpus_pages pdfs)); [left|right]; congruence.
Qed.

(** C8, the claim as stated fails: with chunk size 50, the overlap that
    [index_pdfs] always uses, a folder holding one PDF with a page of text
    ends the run with [ValueError]: neither a structured failure nor a
    success. *)
Lemma index_pdfs_chunk_size_50_raises :
  pdf_folder (Example.fresh Example.no_disk Example.one_pdf) <> [] /\
  fst (index_pdfs Example.encode
         (Example.fresh Example.no_disk Example.one_pdf) 50)
  = Raise ValueError.
Proof. split; [discriminate|reflexivity]. Qed.

(** C8, amended.  [index_pdfs] returns a structured failure in exactly two
    cases: the folder has no PDF file ("No PDFs found"), or no page of any
    file gives a chunk ("No text extracted"); the service and the database
    folder are then untouched.  Otherwise, for a chunk size other than 50,
    it returns success with the manifest, which it also keeps and writes
    to the database folder; for chunk size 50 it raises [ValueError]. *)
Theorem index_pdfs_outcome (encode : string -> faiss.vector)
    (w : World) (size : Z) :
  ((exists msg, fst (index_pdfs encode w size) = Ok (Failure msg)) <->
   (pdf_folder w = [] \/ no_chunks size (pdf_folder w))) /\
  (pdf_folder w = [] ->
   index_pdfs encode w size = (Ok (Failure "No PDFs found"), w)) /\
  (pdf_folder w <> [] -> no_chunks size (pdf_folder w) ->
   index_pdfs encode w size = (Ok (Failure "No text extracted"), w)) /\
  (pdf_folder w <> [] -> ~ no_chunks size (pdf_folder w) ->
   size <> DEFAULT_OVERLAP ->
   exists meta,
     fst (index_pdfs encode w size) = Ok (Success meta) /\
     metadata (self (snd (index_pdfs encode w size))) = Some meta /\
     metadata_path (disk (snd (index_pdfs encode w size))) = Stored meta /\
     num_pdfs meta = Z.of_nat (length (pdf_folder w)) /\
     num_chunks meta =
       Z.of_nat (length (chunks (self (snd (index_pdfs encode w size))))) /\
     pdf_files meta = map name (pdf_folder w) /\
     chunk_size meta = size /\
     embedding_model meta = EMBEDDING_MODEL) /\
  (pdf_folder w <> [] -> ~ no_chunks size (pdf_folder w) ->
   size = DEFAULT_OVERLAP ->
   index_pdfs encode w size = (Raise ValueError, w)).
Proof.
  assert (Hsucc : pdf_folder w <> [] -> ~ no_chunks size (pdf_folder w) ->
            size <> DEFAULT_OVERLAP ->
            exists meta,
              fst (index_pdfs encode w size) = Ok (Success meta) /\
              metadata (self (snd (index_pdfs encode w size))) = Some meta /\
              metadata_path (disk (snd (index_pdfs encode w size)))
                = Stored meta /\
              num_pdfs meta = Z.of_nat (length (pdf_folder w)) /\
              num_chunks meta =
                Z.of_nat (length (chunks (self (snd (index_pdfs encode w size))))) /\
              pdf_files meta = map name (pdf_folder w) /\
              chunk_size meta = size /\
              embedding_model meta = EMBEDDING_MODEL).
  { intros Hne Hsome Hs.
    destruct (index_pdfs_success encode w size Hs Hne Hsome)
      as (cs & es & h & _ & _ & ->).
    cbv zeta. eexists. cbn. repeat split. }
  assert (Hraise : pdf_folder w <> [] -> ~ no_chunks size (pdf_folder w) ->
            size = DEFAULT_OVERLAP ->
            index_pdfs encode w size = (Raise ValueError, w)).
  { intros _ Hsome ->. apply index_pdfs_zero_step.
    intros Hp. apply Hsome, no_chunks_zero_step, Hp. }
  split; [|split; [apply index_pdfs_no_pdfs|split;
                   [apply index_pdfs_no_text|split; assumption]]].
  split.
  - intros [msg Hmsg].
    destruct (pdf_folder w) as [|f fs] eqn:Hf; [left; reflexivity|right].
    destruct (no_chunks_dec size (f :: fs)) as [Hno|Hsome]; [exact Hno|].
    exfalso. destruct (Z.eq_dec size DEFAULT_OVERLAP) as [Hs|Hs].
    + rewrite Hraise in Hmsg by (congruence || assumption). discriminate.
    + destruct Hsucc as (meta & Hm & _); [congruence|assumption|assumption|].
      congruence.
  - intros [Hnone|Hno].
    + rewrite index_pdfs_no_pdfs by assumption. eauto.
    + destruct (pdf_folder w) as [|f fs] eqn:Hf.
      * rewrite index_pdfs_no_pdfs by assumption. eauto.
      * rewrite index_pdfs_no_text by (rewrite Hf; congruence || assumption).
        eauto.
Qed.

Lemma index_pdfs_outcome_witness :
  index_pdfs Example.encode (Example.fresh Example.no_disk []) 500
    = (Ok (Failure "No PDFs found"), Example.fresh Example.no_disk []) /\
  exists meta,
    fst (index_pdfs Example.encode
           (Example.fresh Example.no_disk Example.one_pdf) 500)
      = Ok (Success meta) /\
    num_pdfs meta = 1.
Proof.
  split.
  - apply (index_pdfs_outcome Example.encode (Example.fresh Example.no_disk []) 500).
    reflexivity.
  - destruct (index_pdfs_outcome Example.encode
                (Example.fresh Example.no_disk Example.one_pdf) 500)
      as (_ & _ & _ & Hsucc & _).
    destruct Hsucc as (meta & Hm & _ & _ & Hn & _).
    + discriminate.
    + intros Hno.
      specialize (Hno _ (or_introl eq_refl)). vm_compute in Hno. discriminate.
    + discriminate.
    + exists meta. split; [exact Hm|exact Hn].
Defined.

(** C9.  With [overlap < chunk_size] the chunker returns a list for every
    text; with [chunk_size = overlap] it raises [ValueError] (zero step);
    with [chunk_size < overlap] it returns the empty list for every text.
    As [index_pdfs] calls it with overlap 50, a run with a chunk size of
    at most 50 never succeeds: it raises or reports a failure, and leaves
    the service and the database folder as they were. *)
Theorem chunk_size_must_exceed_overlap (encode : string -> faiss.vector) :
  (forall (text : string) (W O : Z),
      O < W -> exists l, chunk_text text W O = Ok l) /\
  (forall (text : string) (W : Z), chunk_text text W W = Raise ValueError) /\
  (forall (text : string) (W O : Z), W < O -> chunk_text text W O = Ok []) /\
  (forall (w : World) (size : Z),
      size <= 50 ->
      snd (index_pdfs encode w size) = w /\
      (fst (index_pdfs encode w size) = Raise ValueError \/
       exists msg, fst (index_pdfs encode w size) = Ok (Failure msg))).
Proof.
  split; [|split; [|split]].
  - intros text W O H. apply chunk_text_total. lia.
  - exact chunk_text_zero_step.
  - exact chunk_text_backward.
  - intros w size Hs.
    destruct (pdf_folder w) as [|f fs] eqn:Hf.
    { rewrite index_pdfs_no_pdfs by assumption. cbn. eauto. }
    assert (Hne : pdf_folder w <> []) by congruence.
    destruct (no_chunks_dec size (pdf_folder w)) as [Hno|Hsome].
    { rewrite index_pdfs_no_text by assumption. cbn. eauto. }
    assert (size = DEFAULT_OVERLAP) as ->.
    { destruct (Z.eq_dec size DEFAULT_OVERLAP) as [|Hd]; [assumption|].
      exfalso. apply Hsome, no_chunks_below_overlap.
      unfold DEFAULT_OVERLAP in *. lia. }
    rewrite index_pdfs_zero_step; [cbn; eauto|].
    intros Hp. apply Hsome, no_chunks_zero_step, Hp.
Qed.

Lemma chunk_size_must_exceed_overlap_witness :
  (exists l, chunk_text Example.sentence 500 50 = Ok l) /\
  chunk_text Example.sentence 20 50 = Ok [] /\
  snd (index_pdfs Example.encode
         (Example.fresh Example.no_disk Example.one_pdf) 50)
  = Example.fresh Example.no_disk Example.one_pdf.
Proof.
  destruct (chunk_size_must_exceed_overlap Example.encode)
    as (Htotal & _ & Hback & Hrun).
  split; [apply Htotal; lia|].
  split; [apply Hback; lia|].
  apply Hrun. lia.
Defined.

(** ** Searching *)

Lemma getitem_In {A} (l : list A) (i : Z) (x : A) : getitem l i = Ok x -> In x l.
Proof.
  unfold getitem.
  destruct (_ <? 0); [discriminate|].
  destruct (l !! _) eqn:Hl; [|discriminate].
  intros [= <-]. apply list_elem_of_In. eapply list_elem_of_lookup_2, Hl.
Qed.

(** Writing the score into the object just allocated. *)
Lemma store_relevance_score_new (h : heap) (c : ChunkData) (score : Q) :
  store_relevance_score (h ++ [c]) (length h) score =
  h ++ [set_relevance_score score c].
Proof.
  unfold store_relevance_score.
  rewrite lookup_app_r by lia. rewrite Nat.sub_diag. cbn.
  rewrite insert_app_r_alt by lia. rewrite Nat.sub_diag. reflexivity.
Qed.

Lemma scored_copy_grow (n : nat) (stored : list loc) (h k : heap) (l : loc) :
  scored_copy n stored h l -> scored_copy n stored (h ++ k) l.
Proof.
  intros (Hn & src & c & score & Hin & Hsrc & Hl).
  split; [exact Hn|]. exists src, c, score.
  repeat split; [exact Hin| |]; apply lookup_app_l_Some; assumption.
Qed.

Section SearchFacts.

Variable encode : string -> faiss.vector.

Lemma format_hit_frame h0 stored acc hit acc' :
  loop_frame h0 stored acc -> format_hit stored acc hit = Ok acc' ->
  loop_frame h0 stored acc'.
Proof.
  destruct acc as [results h], hit as [idx distance].
  intros [[k Hk] Hres]. cbn in Hk, Hres. subst h. cbn [format_hit].
  destruct (idx <? _); [|intros [= <-]; split; [exists k; reflexivity|exact Hres]].
  destruct (getitem stored idx) as [src|] eqn:Hsrc; [|discriminate]. cbn [Py.bind].
  destruct (deref (h0 ++ k) src) as [c|] eqn:Hc; [|discriminate]. cbn [Py.bind alloc].
  rewrite store_relevance_score_new. intros [= <-].
  unfold deref in Hc. destruct ((h0 ++ k) !! src) eqn:Hlook; [|discriminate].
  injection Hc as ->.
  split; cbn [fst snd].
  - exists (k ++ [set_relevance_score (relevance distance) c]).
    rewrite app_assoc. reflexivity.
  - apply Forall_app. split.
    + eapply Forall_impl; [exact Hres|]. intros l Hl. apply scored_copy_grow, Hl.
    + constructor; [|constructor]. split.
      * rewrite length_app. lia.
      * exists src, c, (relevance distance). split; [eapply getitem_In, Hsrc|].
        split; [apply lookup_app_l_Some, Hlook|].
        rewrite lookup_app_r by lia. rewrite Nat.sub_diag. reflexivity.
Qed.

(** A query on a resident index: the service, the database folder and the
    objects already in the store stay as they are; the results are new
    scored copies. *)
Lemma search_resident_frame (w : World) query top_k :
  self (snd (search_resident encode w query top_k)) = self w /\
  disk (snd (search_resident encode w query top_k)) = disk w /\
  (exists k, objects (snd (search_resident encode w query top_k))
             = objects w ++ k) /\
  forall results, fst (search_resident encode w query top_k) = Ok results ->
    Forall (scored_copy (length (objects w)) (chunks (self w))
              (objects (snd (search_resident encode w query top_k)))) results.
Proof.
  unfold search_resident.
  assert (Hsame : exists k : heap, objects w = objects w ++ k)
    by (exists []; rewrite app_nil_r; reflexivity).
  destruct (index (self w)) as [idx|];
    [|cbn; repeat split; [exact Hsame|discriminate]].
  destruct (faiss.search idx (encode query) top_k) as [[distances indices]|e];
    [|cbn; repeat split; [exact Hsame|discriminate]].
  destruct (for_each _ _ _) as [[results h]|e] eqn:Hloop;
    [|cbn; repeat split; [exact Hsame|discriminate]].
  apply (for_each_invariant _ (loop_frame (objects w) (chunks (self w)))) in Hloop.
  - destruct Hloop as [Hk Hres]. cbn in *.
    repeat split; [exact Hk|]. intros ? [= <-]. exact Hres.
  - intros a x a'. apply format_hit_frame.
  - split; [exact Hsame|constructor].
Qed.

Lemma load_index_frame (w : World) :
  disk (snd (load_index w)) = disk w /\
  (exists k, objects (snd (load_index w)) = objects w ++ k) /\
  (fst (load_index w) = true -> index (self (snd (load_index w))) <> None).
Proof.
  unfold load_index.
  assert (Hsame : exists k : heap, objects w = objects w ++ k)
    by (exists []; rewrite app_nil_r; reflexivity).
  destruct (index_path (disk w)); try (cbn; repeat split; [exact Hsame|discriminate]).
  destruct (chunks_path (disk w)) as [| |cs];
    try (cbn; repeat split; [exact Hsame|discriminate]).
  cbn. destruct (metadata_path (disk w)); cbn; repeat split; eauto; discriminate.
Qed.

End SearchFacts.

(** C7.  On a service with no resident index and no index file in the
    database folder, [search] returns the empty list, raises nothing and
    changes nothing, for every query and every [top_k]. *)
Theorem search_without_index (encode : string -> faiss.vector)
    (w : World) (query : string) (top_k : Z) :
  index (self w) = None -> index_path (disk w) = Missing ->
  search encode w query top_k = (Ok [], w).
Proof.
  intros Hi Hd. unfold search, load_index. rewrite Hi, Hd. reflexivity.
Qed.

Lemma search_without_index_witness :
  search Example.encode (Example.fresh Example.no_disk []) "fox" 5
  = (Ok [], Example.fresh Example.no_disk []).
Proof.
  apply (search_without_index Example.encode
           (Example.fresh Example.no_disk []) "fox" 5); reflexivity.
Defined.

(** C10, the claim as stated fails: the first [search] on a service that
    has no resident index loads the persisted one, so the vector index and
    the chunk array of the service change. *)
Lemma search_lazy_load_changes_service :
  index (self Example.restarted) = None /\
  chunks (self Example.restarted) = [] /\
  index (self (snd (search Example.encode Example.restarted "fox" 1)))
    = Some [Example.encode Example.sentence] /\
  chunks (self (snd (search Example.encode Example.restarted "fox" 1)))
    = [0%nat].
Proof. vm_compute. repeat split. Qed.

(** C10, amended.  [search] never modifies an object that was in the
    store, nor the database folder; every result is a new object: a copy
    of a chunk record of the service with the relevance score written into
    the copy.  Once an index is resident, the vector index, the chunk
    array and the manifest of the service are unchanged by any number of
    [search] calls.  (Without a resident index, the first call loads the
    persisted one.) *)
Theorem search_frame (encode : string -> faiss.vector) (w : World)
    (query : string) (top_k : Z) :
  (exists k, objects (snd (search encode w query top_k)) = objects w ++ k) /\
  disk (snd (search encode w query top_k)) = disk w /\
  (forall results, fst (search encode w query top_k) = Ok results ->
     Forall (scored_copy (length (objects w))
               (chunks (self (snd (search encode w query top_k))))
               (objects (snd (search encode w query top_k)))) results) /\
  (index (self w) <> None ->
     self (snd (search encode w query top_k)) = self w /\
     forall calls : list (string * Z),
       self (search_all encode w calls) = self w /\
       exists k, objects (search_all encode w calls) = objects w ++ k).
Proof.
  assert (Hres : forall w0 : World, index (self w0) <> None ->
            forall q k, search encode w0 q k = search_resident encode w0 q k).
  { intros w0 H0 q k. unfold search. destruct (index (self w0)); congruence. }
  split; [|split; [|split]].
  - unfold search. destruct (index (self w)).
    + apply search_resident_frame.
    + destruct (load_index_frame w) as (_ & [k1 Hk1] & _).
      destruct (load_index w) as [[] w1]; cbn in Hk1 |- *.
      * destruct (search_resident_frame encode w1 query top_k)
          as (_ & _ & [k2 Hk2] & _).
        exists (k1 ++ k2). rewrite Hk2, Hk1, app_assoc. reflexivity.
      * exists k1. exact Hk1.
  - unfold search. destruct (index (self w)).
    + apply search_resident_frame.
    + destruct (load_index_frame w) as (Hd & _).
      destruct (load_index w) as [[] w1]; cbn in Hd |- *; [|exact Hd].
      rewrite <- Hd. apply search_resident_frame.
  - unfold search. destruct (index (self w)).
    + destruct (search_resident_frame encode w query top_k)
        as (Hs & _ & _ & Hr).
      rewrite Hs. exact Hr.
    + destruct (load_index_frame w) as (_ & [k1 Hk1] & _).
      destruct (load_index w) as [[] w1]; cbn in Hk1 |- *.
      * destruct (search_resident_frame encode w1 query top_k)
          as (Hs & _ & _ & Hr).
        rewrite Hs. intros results Hok.
        eapply Forall_impl; [exact (Hr results Hok)|].
        intros l [Hl Hcopy]. split; [|exact Hcopy].
        rewrite Hk1, length_app in Hl. lia.
      * intros results [= <-]. constructor.
  - intros Hi. split.
    + rewrite Hres by assumption. apply search_resident_frame.
    + intros calls. revert w Hi.
      induction calls as [|[q k] calls IH]; intros w0 Hi; cbn [search_all].
      * split; [reflexivity|]. exists []. rewrite app_nil_r. reflexivity.
      * rewrite Hres by assumption.
        destruct (search_resident_frame encode w0 q k)
          as (Hs & _ & [k1 Hk1] & _).
        destruct (IH (snd (search_resident encode w0 q k))) as [Hs' [k2 Hk2]].
        { rewrite Hs. exact Hi. }
        split; [congruence|].
        exists (k1 ++ k2). rewrite Hk2, Hk1, app_assoc. reflexivity.
Qed.

Lemma search_frame_witness :
  self (snd (search Example.encode Example.two_chunks "fox" 5))
    = self Example.two_chunks /\
  self (search_all Example.encode Example.two_chunks
          [("fox"%string, 5); ("dog"%string, 1)])
    = self Example.two_chunks.
Proof.
  destruct (search_frame Example.encode Example.two_chunks "fox" 5)
    as (_ & _ & _ & Hres).
  destruct Hres as [Hone Hall]; [discriminate|].
  split; [exact Hone|]. apply Hall.
Defined.

(** ** The padded answer of the index *)

Lemma insert_hit_Forall (P : Q * Z -> Prop) (x : Q * Z) (l : list (Q * Z)) :
  P x -> Forall P l -> Forall P (faiss.insert_hit x l).
Proof.
  intros Hx. induction 1 as [|y l Hy Hl IH]; cbn.
  - repeat constructor. exact Hx.
  - destruct (faiss.Qlt_bool _ _); repeat constructor; assumption.
Qed.

Lemma sort_hits_Forall (P : Q * Z -> Prop) (l : list (Q * Z)) :
  Forall P l -> Forall P (faiss.sort_hits l).
Proof.
  unfold faiss.sort_hits.
  induction 1 as [|x l Hx Hl IH]; cbn [foldr]; [constructor|].
  apply insert_hit_Forall; assumption.
Qed.

Lemma insert_hit_length (x : Q * Z) (l : list (Q * Z)) :
  length (faiss.insert_hit x l) = S (length l).
Proof.
  induction l as [|y l IH]; cbn; [reflexivity|].
  destruct (faiss.Qlt_bool _ _); cbn; [rewrite IH|]; reflexivity.
Qed.

Lemma sort_hits_length (l : list (Q * Z)) :
  length (faiss.sort_hits l) = length l.
Proof.
  unfold faiss.sort_hits. induction l as [|x l IH]; cbn [foldr]; [reflexivity|].
  rewrite insert_hit_length, IH. reflexivity.
Qed.

(** The model of the index lists its hits by ascending distance. *)
Lemma insert_hit_sorted (x : Q * Z) (l : list (Q * Z)) :
  StronglySorted (fun a b => fst a <= fst b)%Q l ->
  StronglySorted (fun a b => fst a <= fst b)%Q (faiss.insert_hit x l).
Proof.
  induction 1 as [|y l Hs IH Hy]; cbn.
  - repeat constructor.
  - unfold faiss.Qlt_bool. destruct (Qle_bool (fst x) (fst y)) eqn:Hxy; cbn.
    + apply Qle_bool_iff in Hxy. constructor; [constructor; assumption|].
      constructor; [exact Hxy|].
      eapply Forall_impl; [exact Hy|]. intros z Hz. cbn in Hz.
      eapply Qle_trans; eassumption.
    + assert (Hlt : (fst y < fst x)%Q).
      { apply Qnot_le_lt. intros Hle. apply Qle_bool_iff in Hle. congruence. }
      constructor; [exact IH|].
      apply insert_hit_Forall; [apply Qlt_le_weak, Hlt|exact Hy].
Qed.

Lemma sort_hits_sorted (l : list (Q * Z)) :
  StronglySorted (fun a b => fst a <= fst b)%Q (faiss.sort_hits l).
Proof.
  unfold faiss.sort_hits. induction l as [|x l IH]; cbn [foldr].
  - constructor.
  - apply insert_hit_sorted, IH.
Qed.

(** The answer has [k] places, each with the label of a stored vector or
    the padding label [-1]. *)
Lemma faiss_search_row (xb : faiss.IndexFlatL2) (x : faiss.vector) (k : Z) :
  0 < k ->
  exists row : list (Q * Z),
    faiss.search xb x k = Ok (map fst row, map snd row) /\
    length row = Z.to_nat k /\
    Forall (fun hit => -1 <= snd hit < faiss.ntotal xb) row.
Proof.
  intros Hk. unfold faiss.search.
  destruct (Z.leb_spec k 0); [lia|].
  eexists. split; [reflexivity|]. split.
  - rewrite length_app, length_replicate, length_take. lia.
  - apply Forall_app. split.
    + apply Forall_take, sort_hits_Forall.
      apply Forall_lookup. intros i hit Hi.
      rewrite list_lookup_imap in Hi.
      destruct (xb !! i) as [v|] eqn:Hv; [|discriminate].
      injection Hi as <-. cbn. apply lookup_lt_Some in Hv.
      unfold faiss.ntotal. lia.
    + apply Forall_replicate. cbn. unfold faiss.ntotal. lia.
Qed.

Lemma zip_row (row : list (Q * Z)) :
  zip (map snd row) (map fst row) = map (fun hit => (snd hit, fst hit)) row.
Proof. induction row as [|hit row IH]; cbn; [|rewrite IH]; reflexivity. Qed.

Lemma getitem_in_range {A} (l : list A) (i : Z) :
  - Z.of_nat (length l) <= i < Z.of_nat (length l) ->
  exists x, getitem l i = Ok x /\ In x l.
Proof.
  intros Hi. unfold getitem.
  set (i' := if i <? 0 then i + Z.of_nat (length l) else i).
  assert (Hi' : 0 <= i' < Z.of_nat (length l)).
  { subst i'. destruct (Z.ltb_spec i 0); lia. }
  destruct (Z.ltb_spec i' 0); [lia|].
  destruct (lookup_lt_is_Some_2 l (Z.to_nat i')) as [x Hx]; [lia|].
  rewrite Hx. exists x. split; [reflexivity|].
  apply list_elem_of_In. eapply list_elem_of_lookup_2, Hx.
Qed.

(** When every label passes the guard, every hit gives a result. *)
Lemma format_hits_all (stored : list loc) (hits : list (Z * Q))
    (acc : list loc * heap) :
  stored <> [] ->
  Forall (fun l => (l < length (snd acc))%nat) stored ->
  Forall (fun hit => -1 <= fst hit < Z.of_nat (length stored)) hits ->
  exists acc', for_each (format_hit stored) hits acc = Ok acc' /\
               length (fst acc') = (length (fst acc) + length hits)%nat.
Proof.
  intros Hne. revert acc.
  induction hits as [|[idx d] hits IH]; intros [results h] Hvalid Hhits.
  - exists (results, h). cbn. split; [reflexivity|lia].
  - apply Forall_cons in Hhits as [Hidx Hhits]. cbn in Hidx, Hvalid.
    cbn [for_each format_hit].
    destruct (Z.ltb_spec idx (Z.of_nat (length stored))); [|lia].
    destruct (getitem_in_range stored idx) as (src & -> & Hsrc).
    { destruct stored; [congruence|]. cbn [length] in *. lia. }
    cbn [Py.bind]. unfold deref.
    assert (Hlt : (src < length h)%nat).
    { rewrite Forall_forall in Hvalid. apply Hvalid, list_elem_of_In, Hsrc. }
    destruct (lookup_lt_is_Some_2 h src Hlt) as [c ->].
    cbn [Py.bind alloc]. rewrite store_relevance_score_new.
    destruct (IH (results ++ [length h],
                  h ++ [set_relevance_score (relevance d) c])) as (acc' & Hrun & Hlen).
    + cbn. eapply Forall_impl; [exact Hvalid|].
      intros l Hl. cbn in Hl. rewrite length_app. lia.
    + exact Hhits.
    + exists acc'. split; [exact Hrun|].
      rewrite Hlen. cbn. rewrite length_app. cbn. lia.
Qed.

(** Whatever the query, a service with at least one chunk, asked for more
    results than it has vectors, returns as many results as were asked
    for. *)
Lemma search_returns_top_k (encode : string -> faiss.vector) (w : World)
    (idx : faiss.IndexFlatL2) (query : string) (top_k : Z) :
  index (self w) = Some idx ->
  chunks (self w) <> [] ->
  faiss.ntotal idx = Z.of_nat (length (chunks (self w))) ->
  Forall (fun l => (l < length (objects w))%nat) (chunks (self w)) ->
  faiss.ntotal idx < top_k ->
  exists results,
    fst (search encode w query top_k) = Ok results /\
    length results = Z.to_nat top_k.
Proof.
  intros Hidx Hne Hn Hvalid Hk.
  unfold search, search_resident. rewrite Hidx.
  destruct (faiss_search_row idx (encode query) top_k) as (row & -> & Hlen & Hrow).
  { unfold faiss.ntotal in Hk. lia. }
  rewrite zip_row.
  destruct (format_hits_all (chunks (self w))
              (map (fun hit : Q * Z => (snd hit, fst hit)) row)
              ([], objects w) Hne Hvalid) as ([results h] & -> & Hres).
  - rewrite List.Forall_map. eapply Forall_impl; [exact Hrow|].
    intros hit Hhit. cbn in *. rewrite <- Hn. exact Hhit.
  - exists results. split; [reflexivity|].
    cbn in Hres. rewrite Hres, length_map. exact Hlen.
Qed.

(** ** Loading *)


(** When the index file loads and the chunk file does not, the index read
    stays in the service although the load is reported as failed. *)
Lemma load_index_without_chunks (w : World) (idx : faiss.IndexFlatL2) :
  index_path (disk w) = Stored idx ->
  (forall cs, chunks_path (disk w) <> Stored cs) ->
  fst (load_index w) = false /\
  index (self (snd (load_index w))) = Some idx /\
  chunks (self (snd (load_index w))) = chunks (self w).
Proof.
  intros Hidx Hcs. unfold load_index. rewrite Hidx.
  destruct (chunks_path (disk w)) as [| |cs] eqn:Hc.
  - cbn. repeat split.
  - cbn. repeat split.
  - exfalso. exact (Hcs cs eq_refl).
Qed.

(** C5.  [load_index] on a database folder whose index file loads but
    whose chunk file is absent reports failure, yet the index it read
    stays resident beside an empty chunk array; a later [search] then
    skips the load, finds the guard false for every hit and returns an
    empty list as if nothing were wrong. *)
Theorem load_index_keeps_partial_state :
  fst (load_index (Example.restarted_on Example.disk_without_chunks)) = false /\
  index (self (snd (load_index
                      (Example.restarted_on Example.disk_without_chunks))))
    = Some [Example.encode "alpha"] /\
  chunks (self (snd (load_index
                       (Example.restarted_on Example.disk_without_chunks))))
    = [] /\
  fst (search Example.encode
         (snd (load_index (Example.restarted_on Example.disk_without_chunks)))
         "alpha" 1)
    = Ok [].
Proof. vm_compute. repeat split. Qed.

(** C1.  A search that asks for more results than there are vectors gets
    [top_k] results, not the stored chunks once each: the index pads its
    answer with label [-1], which passes the guard [idx < len(chunks)] and
    reads the last chunk again.  A one-chunk index built by [index_pdfs],
    queried with the default [top_k = 5], returns its chunk five times;
    a resident index without vectors raises [IndexError]. *)
Theorem search_beyond_stored_repeats_last_chunk :
  faiss.ntotal [Example.encode Example.sentence] = 1 /\
  index (self Example.indexed) = Some [Example.encode Example.sentence] /\
  option_map (map text)
    (match search_records
             (search Example.encode Example.indexed "the quick" 5) with
     | Ok records => Some records
     | Raise _ => None
     end)
    = Some [Example.sentence; Example.sentence; Example.sentence;
            Example.sentence; Example.sentence] /\
  search_records (search Example.encode Example.two_chunks "xxxxxxx" 3)
    = Ok [set_relevance_score (1 # 2) (Example.chunk "betabeta" 2);
          set_relevance_score (1 # 5) (Example.chunk "alpha" 1);
          set_relevance_score (relevance faiss.FLT_MAX)
            (Example.chunk "betabeta" 2)] /\
  search_records (search Example.encode Example.empty_index "fox" 1)
    = Raise IndexError.
Proof. vm_compute. repeat split. Qed.

(** ** Distance and relevance *)

Lemma relevance_decreasing (d1 d2 : Q) :
  (0 <= d1 -> d1 < d2 -> relevance d2 < relevance d1)%Q.
Proof.
  intros H0 Hlt. unfold relevance, Qdiv. rewrite !Qmult_1_l.
  apply -> (Qinv_lt_contravar (1 + d1) (1 + d2)); lra.
Qed.

Lemma relevance_antitone (d1 d2 : Q) :
  (0 <= d1 -> d1 <= d2 -> relevance d2 <= relevance d1)%Q.
Proof.
  intros H0 Hle. destruct (Qle_lt_or_eq _ _ Hle) as [Hlt|Heq].
  - apply Qlt_le_weak, relevance_decreasing; assumption.
  - unfold relevance. rewrite Heq. apply Qle_refl.
Qed.

Lemma relevance_range (d : Q) : (0 <= d -> 0 < relevance d /\ relevance d <= 1)%Q.
Proof.
  intros H0. unfold relevance. split.
  - apply Qlt_shift_div_l; lra.
  - apply Qle_shift_div_r; lra.
Qed.

Lemma relevance_descending (ds : list Q) :
  Forall (Qle 0) ds -> StronglySorted Qle ds ->
  StronglySorted (flip Qle) (map relevance ds).
Proof.
  intros Hpos Hsorted. induction Hsorted as [|d ds Hs IH Hd]; cbn.
  - constructor.
  - apply Forall_cons in Hpos as [Hd0 Hpos].
    constructor; [apply IH, Hpos|].
    rewrite List.Forall_map. eapply Forall_impl; [exact Hd|].
    intros d' Hle. apply relevance_antitone; assumption.
Qed.

(** The score that [search] writes into a result is the relevance of the
    distance of its hit. *)
Lemma format_hit_score stored results h idx distance results' h' :
  format_hit stored (results, h) (idx, distance) = Ok (results', h') ->
  (results' = results /\ h' = h) \/
  exists c, results' = results ++ [length h] /\
            h' = h ++ [set_relevance_score (relevance distance) c].
Proof.
  cbn [format_hit]. destruct (idx <? _); [|intros [= <- <-]; left; split; reflexivity].
  destruct (getitem stored idx); [|discriminate]. cbn [Py.bind].
  destruct (deref h a) as [c|]; [|discriminate]. cbn [Py.bind alloc].
  rewrite store_relevance_score_new. intros [= <- <-]. right. eauto.
Qed.



(** * Further properties of the code *)

(** ** Strings *)

Lemma str_append_assoc (a b c : string) :
  String.append (String.append a b) c = String.append a (String.append b c).
Proof. induction a as [|x a IH]; cbn; [reflexivity|]. rewrite IH. reflexivity. Qed.

Lemma str_length_append (a b : string) :
  String.length (String.append a b) = (String.length a + String.length b)%nat.
Proof. induction a as [|x a IH]; cbn; [reflexivity|]. rewrite IH. reflexivity. Qed.

Lemma str_append_empty (a : string) : String.append a EmptyString = a.
Proof. induction a as [|x a IH]; cbn; [reflexivity|]. rewrite IH. reflexivity. Qed.

Lemma spaceless_append (a b : string) :
  spaceless (String.append a b) = spaceless a && spaceless b.
Proof.
  induction a as [|x a IH]; cbn; [reflexivity|].
  rewrite IH, andb_assoc. reflexivity.
Qed.

Lemma length_lstrip (s : string) :
  (String.length (lstrip s) <= String.length s)%nat.
Proof.
  induction s as [|c s IH]; cbn; [lia|]. destruct (isspace c); cbn; lia.
Qed.

Lemma length_rstrip (s : string) :
  (String.length (rstrip s) <= String.length s)%nat.
Proof.
  induction s as [|c s IH]; cbn; [lia|].
  destruct (rstrip s); [destruct (isspace c)|]; cbn in *; lia.
Qed.

Lemma length_strip (s : string) :
  (String.length (strip s) <= String.length s)%nat.
Proof.
  unfold strip. pose proof (length_rstrip (lstrip s)).
  pose proof (length_lstrip s). lia.
Qed.

(** ** Words *)

Lemma split_from_words (s acc : string) :
  spaceless acc = true -> Forall is_word (split_from acc s).
Proof.
  revert acc. induction s as [|c s IH]; intros acc Hacc; cbn.
  - destruct acc; [constructor|]. repeat constructor; [discriminate|exact Hacc].
  - destruct (isspace c) eqn:Hc.
    + destruct acc.
      * apply IH. reflexivity.
      * constructor; [split; [discriminate|exact Hacc]|]. apply IH. reflexivity.
    + apply IH. rewrite spaceless_append, Hacc. cbn. rewrite Hc. reflexivity.
Qed.

Lemma split_words (s : string) : Forall is_word (split s).
Proof. apply split_from_words. reflexivity. Qed.

(** Reading a word moves it into the run read so far. *)
Lemma split_from_word (w acc rest : string) :
  spaceless w = true ->
  split_from acc (String.append w rest) = split_from (String.append acc w) rest.
Proof.
  revert acc. induction w as [|c w IH]; intros acc Hw; cbn.
  - rewrite str_append_empty. reflexivity.
  - cbn in Hw. apply andb_true_iff in Hw as [Hc Hw].
    apply negb_true_iff in Hc. rewrite Hc, IH by exact Hw.
    rewrite str_append_assoc. reflexivity.
Qed.

(** Splitting the words joined by single spaces gives the words back. *)
Lemma split_join (ws : list string) :
  Forall is_word ws -> split (join " " ws) = ws.
Proof.
  unfold split, join. induction 1 as [|w ws [Hne Hw] Hws IH]; [reflexivity|].
  cbn [String.concat]. destruct ws as [|w' ws'].
  - rewrite <- (str_append_empty w) at 1.
    rewrite split_from_word by exact Hw. cbn.
    destruct w; [congruence|reflexivity].
  - rewrite split_from_word by exact Hw. cbn [String.append split_from].
    change (isspace " ") with true. cbn iota.
    destruct w; [congruence|]. cbn [String.append]. f_equal. exact IH.
Qed.

(** Length of the words joined by single spaces. *)
Lemma length_join_cons (w : string) (ws : list string) :
  (String.length (join " " (w :: ws))
   <= String.length w + 1 + String.length (join " " ws))%nat.
Proof.
  unfold join. cbn [String.concat]. destruct ws; [lia|].
  rewrite !str_length_append. cbn. lia.
Qed.

Lemma length_join_tail (w : string) (ws : list string) :
  (String.length (join " " ws) <= String.length (join " " (w :: ws)))%nat.
Proof.
  unfold join. cbn [String.concat]. destruct ws; [cbn; lia|].
  rewrite !str_length_append. lia.
Qed.

Lemma length_join_take (n : nat) (ws : list string) :
  (String.length (join " " (take n ws)) <= String.length (join " " ws))%nat.
Proof.
  revert n. induction ws as [|w ws IH]; intros [|n]; cbn [take]; try (cbn; lia).
  specialize (IH n). unfold join in *. cbn [String.concat].
  destruct ws as [|w' ws']; [destruct n; cbn; lia|].
  destruct n as [|n]; cbn [take String.concat] in *.
  - rewrite !str_length_append. lia.
  - rewrite !str_length_append in *.
    destruct (take n ws') eqn:Ht; rewrite ?str_length_append in *; cbn in *; lia.
Qed.

Lemma length_join_drop (n : nat) (ws : list string) :
  (String.length (join " " (drop n ws)) <= String.length (join " " ws))%nat.
Proof.
  revert n. induction ws as [|w ws IH]; intros [|n]; cbn [drop]; try lia.
  specialize (IH n). pose proof (length_join_tail w ws). lia.
Qed.

Lemma length_join_split_from (s acc : string) :
  (String.length (join " " (split_from acc s))
   <= String.length acc + String.length s)%nat.
Proof.
  revert acc. induction s as [|c s IH]; intros acc; cbn [split_from].
  - destruct acc; cbn; lia.
  - destruct (isspace c).
    + destruct acc as [|a acc].
      * specialize (IH EmptyString). cbn in *. lia.
      * pose proof (length_join_cons (String a acc) (split_from EmptyString s)).
        specialize (IH EmptyString). cbn in *. lia.
    + specialize (IH (String.append acc (String c EmptyString))).
      rewrite str_length_append in IH. cbn in *. lia.
Qed.

(** The words of a text, joined again, are no longer than the text. *)
Lemma length_join_split (s : string) :
  (String.length (join " " (split s)) <= String.length s)%nat.
Proof. apply (length_join_split_from s EmptyString). Qed.

(** ** More on the chunker *)

Lemma filter_none {A} (f : A -> bool) (l : list A) :
  (forall x, In x l -> f x = false) -> List.filter f l = [].
Proof.
  induction l as [|x l IH]; intros H; cbn; [reflexivity|].
  rewrite (H x) by (left; reflexivity).
  apply IH. intros y Hy. apply H. right. exact Hy.
Qed.

Lemma spec_offsets_multiples (fuel : nat) (step n off : Z) :
  0 < step -> (Z.to_nat n <= fuel)%nat ->
  In off (spec_offsets fuel 0 step n) <->
  exists k : nat, off = Z.of_nat k * step /\ off < n.
Proof.
  intros Hs Hf. split.
  - intros Hin. pose proof (spec_offsets_bounds _ _ _ _ _ Hs (Z.le_refl 0) Hin).
    rewrite spec_offsets_progression in Hin by (try assumption; lia).
    apply in_map_iff in Hin as (k & <- & _). exists k. split; lia.
  - intros (k & -> & Hk).
    rewrite spec_offsets_progression by (try assumption; lia).
    apply in_map_iff. exists k. split; [lia|].
    apply in_seq. split; [lia|]. cbn.
    unfold range_length. rewrite !Z.sub_0_r.
    destruct (Z.ltb_spec 0 step); [|lia].
    destruct (Z.ltb_spec 0 n); [|nia].
    assert (Z.of_nat k <= (n - 1) / step).
    { apply Z.div_le_lower_bound; lia. }
    lia.
Qed.

(** X1.  Every chunk that [chunk_text] returns (chunk size [W >= 0],
    overlap [O < W]) is a window of consecutive words of the text: split
    again it gives the words at an offset that is a multiple of [W - O],
    at least one word and at most [W], and it is longer than 50
    characters. *)
Theorem chunk_text_chunk_is_window (text : string) (W O : Z)
    (l : list string) (chunk : string) :
  0 <= W -> O < W -> chunk_text text W O = Ok l -> In chunk l ->
  exists k : nat,
    Z.of_nat k * (W - O) < Z.of_nat (length (split text)) /\
    split chunk = spec_window (split text) W (Z.of_nat k * (W - O)) /\
    (1 <= length (split chunk) <= Z.to_nat W)%nat /\
    50 < len chunk.
Proof.
  intros HW HO Hrun Hin.
  rewrite chunk_text_spec in Hrun by assumption. injection Hrun as <-.
  unfold spec_chunks in Hin.
  apply List.filter_In in Hin as [Hin Hkeep].
  apply in_map_iff in Hin as (off & <- & Hoff).
  apply spec_offsets_multiples in Hoff as (k & -> & Hk); [|lia|lia].
  exists k. split; [exact Hk|].
  assert (Hsplit : split (join " " (spec_window (split text) W (Z.of_nat k * (W - O))))
                   = spec_window (split text) W (Z.of_nat k * (W - O))).
  { apply split_join. unfold spec_window. apply Forall_take, Forall_drop, split_words. }
  split; [exact Hsplit|]. rewrite Hsplit.
  unfold spec_keep in Hkeep. apply Z.ltb_lt in Hkeep.
  pose proof (length_strip (join " " (spec_window (split text) W (Z.of_nat k * (W - O))))) as Hstrip.
  unfold len in *. split; [|lia]. split.
  - destruct (spec_window (split text) W (Z.of_nat k * (W - O))); [cbn in Hkeep; lia|cbn; lia].
  - unfold spec_window. rewrite length_take. lia.
Qed.

Lemma chunk_text_chunk_is_window_witness :
  exists k : nat,
    Z.of_nat k * (20 - 5) < Z.of_nat (length (split Example.sentence)) /\
    split Example.sentence
      = spec_window (split Example.sentence) 20 (Z.of_nat k * (20 - 5)) /\
    (1 <= length (split Example.sentence) <= Z.to_nat 20)%nat /\
    50 < len Example.sentence.
Proof.
  apply (chunk_text_chunk_is_window Example.sentence 20 5 [Example.sentence]).
  - lia.
  - lia.
  - vm_compute. reflexivity.
  - left. reflexivity.
Defined.

(** X2.  With an overlap [0 <= O < W] no word falls between two windows:
    every word of the text lies in the window at some offset that
    [chunk_text] visits, and the chunk of that window is returned whenever
    it passes the 50-character floor. *)
Theorem chunk_text_covers_every_word (text : string) (W O : Z)
    (j : nat) (w : string) :
  0 <= O < W -> split text !! j = Some w ->
  exists off : Z,
    In off (spec_offsets (length (split text)) 0 (W - O)
              (Z.of_nat (length (split text)))) /\
    off <= Z.of_nat j < off + W /\
    spec_window (split text) W off !! (j - Z.to_nat off)%nat = Some w /\
    forall l,
      chunk_text text W O = Ok l ->
      spec_keep (join " " (spec_window (split text) W off)) = true ->
      In (join " " (spec_window (split text) W off)) l.
Proof.
  intros HO Hj.
  pose proof (lookup_lt_Some _ _ _ Hj) as Hlt.
  set (step := W - O). assert (Hstep : 0 < step) by (subst step; lia).
  set (k := Z.of_nat j / step).
  assert (Hk0 : 0 <= k) by (apply Z.div_pos; lia).
  assert (Hmod : 0 <= Z.of_nat j - k * step < step).
  { pose proof (Z.mod_pos_bound (Z.of_nat j) step Hstep) as Hm.
    rewrite Z.mod_eq in Hm by lia. subst k. lia. }
  exists (k * step).
  assert (Hin : In (k * step)
                  (spec_offsets (length (split text)) 0 step
                     (Z.of_nat (length (split text))))).
  { apply spec_offsets_multiples; [exact Hstep|lia|].
    exists (Z.to_nat k). split; lia. }
  split; [exact Hin|]. split; [subst step; lia|]. split.
  - unfold spec_window. rewrite lookup_take.
    destruct (decide (j - Z.to_nat (k * step) < Z.to_nat W)%nat) as [_|Hn];
      [|subst step; lia].
    rewrite lookup_drop.
    replace (Z.to_nat (k * step) + (j - Z.to_nat (k * step)))%nat with j by lia.
    exact Hj.
  - intros l Hrun Hkeep.
    rewrite chunk_text_spec in Hrun by lia. injection Hrun as <-.
    unfold spec_chunks. apply List.filter_In. split; [|exact Hkeep].
    apply in_map_iff. exists (k * step). split; [reflexivity|exact Hin].
Qed.

Lemma chunk_text_covers_every_word_witness :
  exists off : Z,
    In off (spec_offsets (length (split Example.sentence)) 0 (5 - 2)
              (Z.of_nat (length (split Example.sentence)))) /\
    off <= Z.of_nat 7 < off + 5 /\
    spec_window (split Example.sentence) 5 off !! (7 - Z.to_nat off)%nat
      = Some "lazy"%string /\
    forall l,
      chunk_text Example.sentence 5 2 = Ok l ->
      spec_keep (join " " (spec_window (split Example.sentence) 5 off)) = true ->
      In (join " " (spec_window (split Example.sentence) 5 off)) l.
Proof.
  apply (chunk_text_covers_every_word Example.sentence 5 2 7 "lazy").
  - lia.
  - reflexivity.
Defined.

(** X3.  A text of at most 50 characters gives no chunk, whatever the
    chunk size and the overlap (as long as they differ, so that the chunker
    returns at all). *)
Theorem chunk_text_short_text_no_chunk (text : string) (W O : Z) :
  W <> O -> len text <= 50 -> chunk_text text W O = Ok [].
Proof.
  intros Hne Hlen.
  destruct (Z.lt_trichotomy W O) as [Hlt|[Heq|Hgt]]; [|lia|].
  { apply chunk_text_backward. exact Hlt. }
  rewrite chunk_text_forward by exact Hgt. f_equal.
  apply filter_none. intros chunk Hin.
  apply in_map_iff in Hin as (i & <- & _).
  unfold spec_keep. apply Z.ltb_ge. unfold slice.
  set (a := Z.to_nat _). set (b := Z.to_nat _).
  pose proof (length_strip (join " " (take a (drop b (split text))))).
  pose proof (length_join_take a (drop b (split text))).
  pose proof (length_join_drop b (split text)).
  pose proof (length_join_split text).
  unfold len in *. lia.
Qed.

Lemma chunk_text_short_text_no_chunk_witness :
  chunk_text "short page" 500 50 = Ok [].
Proof.
  apply (chunk_text_short_text_no_chunk "short page" 500 50).
  - lia.
  - vm_compute. discriminate.
Defined.

(** ** More on extraction and indexing *)

(** X4.  [extract_text_from_pdf] yields exactly the pages whose text is
    not blank, each under the name of the file and numbered by its
    position in the file counted from 1 (blank pages are skipped without
    renumbering); a file that cannot be parsed yields no page. *)
Theorem extract_text_from_pdf_pages (pdf_path : PdfFile) (page_data : Page.t) :
  In page_data (extract_text_from_pdf pdf_path) <->
  exists (texts : list string) (i : nat),
    page_texts pdf_path = Some texts /\
    texts !! i = Some (Page.text page_data) /\
    strip (Page.text page_data) <> EmptyString /\
    Page.page_num page_data = Z.of_nat i + 1 /\
    Page.filename page_data = name pdf_path.
Proof.
  unfold extract_text_from_pdf.
  destruct (page_texts pdf_path) as [texts|].
  2: { split; [intros []|intros (? & ? & ? & _); discriminate]. }
  rewrite <- list_elem_of_In, list_elem_of_omap. split.
  - intros ([i t] & Hin & Hpage).
    apply list_elem_of_lookup in Hin as [j Hj].
    unfold enumerate in Hj. rewrite list_lookup_imap in Hj.
    destruct (texts !! j) as [t'|] eqn:Ht; [|discriminate].
    injection Hj as <- <-.
    destruct (strip t') eqn:Hs; [discriminate|].
    injection Hpage as <-. cbn [Page.text Page.page_num Page.filename].
    exists texts, j. rewrite Hs. repeat split; [exact Ht|discriminate].
  - intros (texts' & i & [= <-] & Ht & Hs & Hn & Hf).
    exists (Z.of_nat i, Page.text page_data). split.
    + apply list_elem_of_lookup. exists i.
      unfold enumerate. rewrite list_lookup_imap, Ht. reflexivity.
    + destruct (strip (Page.text page_data)); [congruence|].
      destruct page_data. cbn in *. subst. reflexivity.
Qed.

Lemma for_each_invariant_in {A B} (body : B -> A -> result B) (I : B -> Prop)
    (l : list A) :
  (forall acc x acc', In x l -> I acc -> body acc x = Ok acc' -> I acc') ->
  forall acc acc', I acc -> for_each body l acc = Ok acc' -> I acc'.
Proof.
  induction l as [|x l IH]; intros Hbody acc acc' HI; cbn.
  - intros [= <-]. exact HI.
  - destruct (body acc x) as [acc1|] eqn:Hb; [|discriminate].
    apply IH.
    + intros a y a' Hy. apply Hbody. right. exact Hy.
    + eapply Hbody; [left; reflexivity|exact HI|exact Hb].
Qed.

Lemma traced_grow size pages (h k : heap) (l : loc) :
  traced size pages h l -> traced size pages (h ++ k) l.
Proof.
  intros (c & p & cut & Hl & H). exists c, p, cut.
  split; [apply lookup_app_l_Some, Hl|exact H].
Qed.

Section IndexMore.

Variable encode : string -> faiss.vector.

Lemma add_chunks_traced size pages page_data cut items acc :
  In page_data pages -> page_chunks size page_data = Ok cut ->
  Forall (fun it : Z * string => 0 <= fst it /\
            cut !! Z.to_nat (fst it) = Some (snd it)) items ->
  Forall (traced size pages (snd acc)) (fst (fst acc)) ->
  Forall (traced size pages
            (snd (fold_left (add_chunk encode page_data) items acc)))
         (fst (fst (fold_left (add_chunk encode page_data) items acc))).
Proof.
  intros Hp Hcut. revert acc.
  induction items as [|[i chunk] items IH]; intros [[cs es] h] Hitems Hacc;
    cbn [fold_left]; [exact Hacc|].
  apply Forall_cons in Hitems as [[Hi Hc] Hitems]. cbn in Hi, Hc, Hacc.
  apply IH; [exact Hitems|]. cbn.
  apply Forall_app. split.
  - eapply Forall_impl; [exact Hacc|]. intros l Hl. apply traced_grow, Hl.
  - constructor; [|constructor].
    eexists _, page_data, cut. split.
    + rewrite lookup_app_r by lia. rewrite Nat.sub_diag. reflexivity.
    + cbn. repeat split; assumption.
Qed.

Lemma enumerate_lookup (cut : list string) :
  Forall (fun it : Z * string => 0 <= fst it /\
            cut !! Z.to_nat (fst it) = Some (snd it)) (enumerate cut).
Proof.
  apply Forall_lookup. intros i [j c] Hi.
  unfold enumerate in Hi. rewrite list_lookup_imap in Hi.
  destruct (cut !! i) eqn:Hc; [|discriminate]. injection Hi as <- <-.
  cbn. rewrite Nat2Z.id. split; [lia|exact Hc].
Qed.

Lemma index_pages_traced size pages acc acc' :
  Forall (traced size pages (snd acc)) (fst (fst acc)) ->
  for_each (index_page encode size) pages acc = Ok acc' ->
  Forall (traced size pages (snd acc')) (fst (fst acc')).
Proof.
  apply (for_each_invariant_in _
           (fun a => Forall (traced size pages (snd a)) (fst (fst a)))).
  intros a p a' Hp Ha. unfold index_page.
  destruct (chunk_text (Page.text p) size DEFAULT_OVERLAP) as [cut|] eqn:Hcut;
    [|discriminate].
  cbn [Py.bind]. intros [= <-].
  apply (add_chunks_traced size pages p cut); auto using enumerate_lookup.
Qed.

Lemma add_chunks_laid_out h0 page_data items k acc :
  laid_out encode h0 k acc ->
  exists k', laid_out encode h0 (k ++ k')
               (fold_left (add_chunk encode page_data) items acc) /\
             length k' = length items.
Proof.
  revert k acc. induction items as [|[i chunk] items IH];
    intros k [[cs es] h] (-> & -> & ->); cbn [fold_left].
  - exists []. rewrite app_nil_r. repeat split.
  - set (c := {| text := chunk; filename := Page.filename page_data;
                 page_num := Page.page_num page_data; chunk_idx := i;
                 relevance_score := None |}).
    destruct (IH (k ++ [c])
                (seq (length h0) (length k) ++ [length (h0 ++ k)],
                 map (fun c => encode (text c)) k ++ [encode chunk],
                 (h0 ++ k) ++ [c])) as (k' & Hk' & Hlen).
    + cbn. split; [rewrite app_assoc; reflexivity|]. split.
      * rewrite !length_app. cbn [length]. rewrite Nat.add_1_r, seq_S. reflexivity.
      * rewrite map_app. reflexivity.
    + exists ([c] ++ k'). rewrite app_assoc. split; [exact Hk'|].
      cbn. rewrite Hlen. reflexivity.
Qed.

Lemma index_pages_laid_out size h0 pages k acc acc' :
  laid_out encode h0 k acc ->
  for_each (index_page encode size) pages acc = Ok acc' ->
  exists k', laid_out encode h0 (k ++ k') acc'.
Proof.
  revert k acc. induction pages as [|p pages IH]; intros k acc Hacc; cbn.
  - intros [= <-]. exists []. rewrite app_nil_r. exact Hacc.
  - unfold index_page at 1.
    destruct (chunk_text (Page.text p) size DEFAULT_OVERLAP) as [cut|];
      [|discriminate].
    cbn [Py.bind].
    destruct (add_chunks_laid_out h0 p (enumerate cut) k acc Hacc)
      as (k1 & Hk1 & _).
    intros Hrun. destruct (IH _ _ Hk1 Hrun) as (k2 & Hk2).
    exists (k1 ++ k2). rewrite app_assoc. exact Hk2.
Qed.

(** Reading the records behind the references of a run gives the records
    back. *)
Lemma pickled_seq (h0 k : heap) :
  pickled (h0 ++ k) (seq (length h0) (length k)) = k.
Proof.
  revert h0. induction k as [|c k IH]; intros h0; [reflexivity|].
  cbn [length seq]. unfold pickled in *. cbn [omap list_omap].
  rewrite lookup_app_r by lia. rewrite Nat.sub_diag. cbn. f_equal.
  specialize (IH (h0 ++ [c])).
  rewrite <- app_assoc, length_app in IH. cbn in IH.
  rewrite Nat.add_1_r in IH. exact IH.
Qed.

(** The state that a successful run leaves. *)
Lemma index_pdfs_layout (w w' : World) (size : Z) (meta : Metadata) :
  index_pdfs encode w size = (Ok (Success meta), w') ->
  exists k : list ChunkData,
    k <> [] /\
    objects w' = objects w ++ k /\
    chunks (self w') = seq (length (objects w)) (length k) /\
    index (self w') = Some (map (fun c => encode (text c)) k) /\
    metadata (self w') = Some meta /\
    disk w' = {| index_path := Stored (map (fun c => encode (text c)) k);
                 chunks_path := Stored k;
                 metadata_path := Stored meta |} /\
    num_chunks meta = Z.of_nat (length k) /\
    pdf_folder w' = pdf_folder w.
Proof.
  unfold index_pdfs.
  destruct (pdf_folder w) as [|f fs] eqn:Hf; [discriminate|].
  destruct (for_each _ _ _) as [[[cs es] h]|e] eqn:Hrun; [|discriminate].
  rewrite index_pdfs_loop_flat in Hrun.
  apply (index_pages_laid_out size (objects w) _ []) in Hrun as (k & -> & -> & ->);
    [|cbn; rewrite app_nil_r; repeat split].
  cbn [app] in *.
  remember (seq (length (objects w)) (length k)) as refs eqn:Hrefs.
  destruct refs as [|l0 ls]; [discriminate|].
  intros H. apply pair_equal_spec in H as [Hm <-].
  assert (Hmeta : meta = {| num_pdfs := Z.of_nat (length (f :: fs));
                            num_chunks := Z.of_nat (length (l0 :: ls));
                            pdf_files := map name (f :: fs);
                            chunk_size := size;
                            embedding_model := EMBEDDING_MODEL |})
    by congruence.
  cbn [self objects disk index chunks metadata pdf_folder faiss.add app].
  rewrite <- Hmeta, Hrefs, pickled_seq.
  exists k. split; [intros ->; discriminate|].
  repeat split. rewrite Hmeta. cbn [num_chunks]. rewrite Hrefs, length_seq.
  reflexivity.
Qed.

End IndexMore.

(** X5.  Every chunk record of a successful [index_pdfs] run can be
    traced to its source: it names a file of the folder and a page (numbered
    from 1) that the extractor gave for that file, its text is the chunk of
    that page at position [chunk_idx], and it carries no relevance score. *)
Theorem index_pdfs_chunk_provenance (encode : string -> faiss.vector)
    (w w' : World) (size : Z) (meta : Metadata) (l : loc) :
  index_pdfs encode w size = (Ok (Success meta), w') ->
  In l (chunks (self w')) ->
  exists (c : ChunkData) (pdf_path : PdfFile) (page_data : Page.t)
         (cut : list string),
    objects w' !! l = Some c /\
    In pdf_path (pdf_folder w) /\
    In page_data (extract_text_from_pdf pdf_path) /\
    filename c = name pdf_path /\
    page_num c = Page.page_num page_data /\ 1 <= page_num c /\
    chunk_text (Page.text page_data) size DEFAULT_OVERLAP = Ok cut /\
    0 <= chunk_idx c /\
    cut !! Z.to_nat (chunk_idx c) = Some (text c) /\
    relevance_score c = None.
Proof.
  unfold index_pdfs.
  destruct (pdf_folder w) as [|f fs] eqn:Hf; [discriminate|].
  destruct (for_each _ _ _) as [[[cs es] h]|e] eqn:Hrun; [|discriminate].
  rewrite index_pdfs_loop_flat in Hrun.
  apply index_pages_traced in Hrun; [|constructor].
  cbn [fst snd] in Hrun.
  destruct cs as [|l0 cs]; [discriminate|].
  intros H. apply pair_equal_spec in H as [_ <-]. cbn [self chunks objects].
  intros Hl. rewrite Forall_forall in Hrun.
  destruct (Hrun l) as (c & p & cut & Hc & Hp & Hfile & Hnum & Hcut & Hidx & Htext & Hscore).
  { apply list_elem_of_In. exact Hl. }
  apply in_flat_map in Hp as (pdf & Hpdf & Hp).
  pose proof (proj1 (extract_text_from_pdf_pages pdf p) Hp)
    as (texts & i & _ & _ & _ & Hi & Hname).
  exists c, pdf, p, cut.
  repeat split; try assumption; try congruence. lia.
Qed.

Lemma index_pdfs_chunk_provenance_witness :
  exists (c : ChunkData) (pdf_path : PdfFile) (page_data : Page.t)
         (cut : list string),
    objects Example.indexed !! 0%nat = Some c /\
    In pdf_path Example.one_pdf /\
    In page_data (extract_text_from_pdf pdf_path) /\
    filename c = name pdf_path /\
    page_num c = Page.page_num page_data /\ 1 <= page_num c /\
    chunk_text (Page.text page_data) 500 DEFAULT_OVERLAP = Ok cut /\
    0 <= chunk_idx c /\
    cut !! Z.to_nat (chunk_idx c) = Some (text c) /\
    relevance_score c = None.
Proof.
  apply (index_pdfs_chunk_provenance Example.encode
           (Example.fresh Example.no_disk Example.one_pdf)
           Example.indexed 500 Example.one_pdf_meta 0%nat).
  - vm_compute. reflexivity.
  - left. reflexivity.
Defined.

Lemma corpus_pages_readable (pdfs : list PdfFile) :
  corpus_pages (List.filter readable pdfs) = corpus_pages pdfs.
Proof.
  unfold corpus_pages. induction pdfs as [|f pdfs IH]; cbn; [reflexivity|].
  unfold readable at 1, extract_text_from_pdf at 2.
  destruct (page_texts f) eqn:Hf; cbn; rewrite IH; [|reflexivity].
  unfold extract_text_from_pdf at 1. rewrite Hf. reflexivity.
Qed.

(** X6.  Files that the reader cannot parse do not change what is
    indexed: the index, the chunk array, the store and the index and chunk
    files are the same as for the folder without those files.  The
    manifest of a successful run still counts every file of the folder,
    the unreadable ones too. *)
Theorem index_pdfs_skips_unreadable (encode : string -> faiss.vector)
    (w : World) (size : Z) :
  index (self (snd (index_pdfs encode w size)))
    = index (self (snd (index_pdfs encode
         (with_pdf_folder w (List.filter readable (pdf_folder w))) size))) /\
  chunks (self (snd (index_pdfs encode w size)))
    = chunks (self (snd (index_pdfs encode
         (with_pdf_folder w (List.filter readable (pdf_folder w))) size))) /\
  objects (snd (index_pdfs encode w size))
    = objects (snd (index_pdfs encode
         (with_pdf_folder w (List.filter readable (pdf_folder w))) size)) /\
  index_path (disk (snd (index_pdfs encode w size)))
    = index_path (disk (snd (index_pdfs encode
         (with_pdf_folder w (List.filter readable (pdf_folder w))) size))) /\
  chunks_path (disk (snd (index_pdfs encode w size)))
    = chunks_path (disk (snd (index_pdfs encode
         (with_pdf_folder w (List.filter readable (pdf_folder w))) size))) /\
  forall meta,
    fst (index_pdfs encode w size) = Ok (Success meta) ->
    num_pdfs meta = Z.of_nat (length (pdf_folder w)) /\
    pdf_files meta = map name (pdf_folder w) /\
    exists meta',
      fst (index_pdfs encode
             (with_pdf_folder w (List.filter readable (pdf_folder w))) size)
        = Ok (Success meta') /\
      num_chunks meta' = num_chunks meta.
Proof.
  unfold index_pdfs, with_pdf_folder. cbn [pdf_folder objects self disk].
  destruct (pdf_folder w) as [|f fs] eqn:Hf.
  { cbn. repeat split; discriminate. }
  rewrite !index_pdfs_loop_flat.
  destruct (List.filter readable (f :: fs)) as [|g gs] eqn:Hg.
  { assert (Hnone : corpus_pages (f :: fs) = []).
    { rewrite <- corpus_pages_readable, Hg. reflexivity. }
    rewrite Hnone. cbn. repeat split; discriminate. }
  rewrite !index_pdfs_loop_flat, <- Hg, corpus_pages_readable.
  destruct (for_each _ _ _) as [[[cs es] h]|e]; [|cbn; repeat split; discriminate].
  destruct cs as [|l0 cs]; cbn; [repeat split; discriminate|].
  repeat split; try (injection H as <-; reflexivity).
  injection H as <-. eexists. split; reflexivity.
Qed.

(** X7.  A successful [index_pdfs] run replaces the chunk array
    wholesale: the new array refers only to records created by this run,
    without repetition, so no chunk of an earlier index stays reachable
    through it; the records that were in the store are left as they
    were. *)
Theorem index_pdfs_replaces_chunks (encode : string -> faiss.vector)
    (w w' : World) (size : Z) (meta : Metadata) :
  index_pdfs encode w size = (Ok (Success meta), w') ->
  well_formed w ->
  (exists k, objects w' = objects w ++ k) /\
  well_formed w' /\
  NoDup (chunks (self w')) /\
  Z.of_nat (length (chunks (self w'))) = num_chunks meta /\
  forall l, In l (chunks (self w)) -> ~ In l (chunks (self w')).
Proof.
  intros Hrun Hwf.
  apply index_pdfs_layout in Hrun
    as (k & _ & Hobj & Hchunks & _ & _ & _ & Hnum & _).
  split; [exists k; exact Hobj|].
  unfold well_formed in *. rewrite Hchunks, Hobj.
  split; [|split; [|split]].
  - apply Forall_forall. intros l Hl. apply list_elem_of_In, in_seq in Hl.
    rewrite length_app. lia.
  - apply NoDup_ListNoDup, seq_NoDup.
  - rewrite length_seq. symmetry. exact Hnum.
  - intros l Hold Hnew. apply in_seq in Hnew.
    rewrite Forall_forall in Hwf. apply list_elem_of_In, Hwf in Hold. lia.
Qed.

Lemma index_pdfs_replaces_chunks_witness :
  NoDup (chunks (self (snd (index_pdfs Example.encode
                              (with_pdf_folder Example.two_chunks
                                 Example.one_pdf) 500)))) /\
  forall l, In l (chunks (self Example.two_chunks)) ->
    ~ In l (chunks (self (snd (index_pdfs Example.encode
                                 (with_pdf_folder Example.two_chunks
                                    Example.one_pdf) 500)))).
Proof.
  destruct (index_pdfs_replaces_chunks Example.encode
              (with_pdf_folder Example.two_chunks Example.one_pdf)
              (snd (index_pdfs Example.encode
                      (with_pdf_folder Example.two_chunks Example.one_pdf) 500))
              500 Example.one_pdf_meta)
    as (_ & _ & Hnd & _ & Hfresh).
  - vm_compute. reflexivity.
  - repeat constructor.
  - split; [exact Hnd|exact Hfresh].
Defined.

(** X8.  The database folder that a successful [index_pdfs] run writes
    loads again: on a new service [load_index] returns [True] and restores
    the same vector index, the same manifest and chunk records equal to
    the indexed ones, in the same order. *)
Theorem load_index_after_index_pdfs (encode : string -> faiss.vector)
    (w w' : World) (size : Z) (meta : Metadata)
    (objs : heap) (pdfs : list PdfFile) :
  index_pdfs encode w size = (Ok (Success meta), w') ->
  fst (load_index (started objs (disk w') pdfs)) = true /\
  index (self (snd (load_index (started objs (disk w') pdfs))))
    = index (self w') /\
  metadata (self (snd (load_index (started objs (disk w') pdfs))))
    = Some meta /\
  stored_records (snd (load_index (started objs (disk w') pdfs)))
    = stored_records w' /\
  well_formed (snd (load_index (started objs (disk w') pdfs))).
Proof.
  intros Hrun.
  apply index_pdfs_layout in Hrun
    as (k & _ & Hobj & Hchunks & Hidx & _ & Hdisk & _ & _).
  unfold load_index, started, stored_records, well_formed, unpickle.
  cbn [disk]. rewrite Hdisk. cbn [index_path chunks_path metadata_path].
  cbn [fst snd self objects index chunks metadata].
  rewrite Hidx, Hchunks, Hobj, !pickled_seq.
  repeat split.
  apply Forall_forall. intros l Hl. apply list_elem_of_In, in_seq in Hl.
  rewrite length_app. lia.
Qed.

Lemma load_index_after_index_pdfs_witness :
  fst (load_index (started [] (disk Example.indexed) [])) = true /\
  stored_records (snd (load_index (started [] (disk Example.indexed) [])))
    = stored_records Example.indexed.
Proof.
  destruct (load_index_after_index_pdfs Example.encode
              (Example.fresh Example.no_disk Example.one_pdf)
              Example.indexed 500 Example.one_pdf_meta [] [])
    as (Hok & _ & _ & Hrec & _).
  - vm_compute. reflexivity.
  - split; [exact Hok|exact Hrec].
Defined.

(** ** More on searching *)

Lemma pickled_snoc (h : heap) (refs : list loc) (l : loc) (c : ChunkData) :
  h !! l = Some c -> pickled h (refs ++ [l]) = pickled h refs ++ [c].
Proof.
  intros Hl. unfold pickled. rewrite omap_app. cbn. rewrite Hl. reflexivity.
Qed.

Lemma pickled_grow (h k : heap) (refs : list loc) :
  Forall (fun l => (l < length h)%nat) refs ->
  pickled (h ++ k) refs = pickled h refs.
Proof.
  unfold pickled. induction 1 as [|l refs Hl _ IH]; [reflexivity|].
  cbn [omap list_omap]. rewrite lookup_app_l by exact Hl.
  fold (omap (fun l => (h ++ k) !! l) refs). 
  fold (omap (fun l => h !! l) refs). rewrite IH. reflexivity.
Qed.

Lemma pickled_valid (h : heap) (refs : list loc) :
  Forall (fun l => (l < length h)%nat) refs ->
  Forall2 (fun l c => h !! l = Some c) refs (pickled h refs).
Proof.
  unfold pickled. induction 1 as [|l refs Hl _ IH]; [constructor|].
  cbn [omap list_omap].
  destruct (lookup_lt_is_Some_2 h l Hl) as [c Hc]. rewrite Hc.
  constructor; [exact Hc|exact IH].
Qed.

(** Indexing two lists that correspond position by position. *)
Lemma getitem_Forall2 {A B} (R : A -> B -> Prop) (l1 : list A) (l2 : list B)
    (i : Z) :
  Forall2 R l1 l2 ->
  match getitem l1 i with
  | Ok a => exists b, getitem l2 i = Ok b /\ R a b
  | Raise e => getitem l2 i = Raise e
  end.
Proof.
  intros H. unfold getitem. rewrite <- (Forall2_length _ _ _ H).
  destruct (_ <? 0); [reflexivity|].
  destruct (l1 !! _) as [a|] eqn:Ha.
  - destruct (Forall2_lookup_l _ _ _ _ _ H Ha) as (b & -> & Hab). eauto.
  - apply lookup_ge_None in Ha.
    pose proof (Forall2_length _ _ _ H) as Hlen.
    rewrite (proj2 (lookup_ge_None l2 _)) by lia. reflexivity.
Qed.

(** The result loop of [search], read on the records behind the
    references. *)
Lemma format_hits_records (stored : list loc) (hits : list (Z * Q))
    (results : list loc) (h : heap) :
  Forall (fun l => (l < length h)%nat) stored ->
  Forall (fun l => (l < length h)%nat) results ->
  match for_each (format_hit stored) hits (results, h) with
  | Ok (results', h') =>
      for_each (scored_hit (pickled h stored)) hits (pickled h results)
      = Ok (pickled h' results')
  | Raise e =>
      for_each (scored_hit (pickled h stored)) hits (pickled h results)
      = Raise e
  end.
Proof.
  revert results h. induction hits as [|[idx d] hits IH];
    intros results h Hstored Hresults; [reflexivity|].
  cbn [for_each format_hit scored_hit].
  pose proof (pickled_valid h stored Hstored) as Hvalid.
  rewrite <- (Forall2_length _ _ _ Hvalid).
  destruct (idx <? Z.of_nat (length stored)); [|apply IH; assumption].
  pose proof (getitem_Forall2 _ _ _ idx Hvalid) as Hget.
  destruct (getitem stored idx) as [src|e]; [|rewrite Hget; reflexivity].
  destruct Hget as (c & -> & Hc). cbn [Py.bind]. unfold deref. rewrite Hc.
  cbn [Py.bind alloc]. rewrite store_relevance_score_new.
  set (c' := set_relevance_score (relevance d) c).
  specialize (IH (results ++ [length h]) (h ++ [c'])).
  rewrite (pickled_grow h [c'] stored Hstored) in IH.
  rewrite (pickled_snoc (h ++ [c']) results (length h) c') in IH.
  2: { rewrite lookup_app_r by lia. rewrite Nat.sub_diag. reflexivity. }
  rewrite (pickled_grow h [c'] results Hresults) in IH.
  apply IH.
  - eapply Forall_impl; [exact Hstored|]. intros l Hl. cbn in Hl.
    rewrite length_app. lia.
  - apply Forall_app. split.
    + eapply Forall_impl; [exact Hresults|]. intros l Hl. cbn in Hl.
      rewrite length_app. lia.
    + repeat constructor. rewrite length_app. cbn. lia.
Qed.

(** What a query on a resident index returns, read on records. *)
Lemma search_resident_records (encode : string -> faiss.vector) (w : World)
    (query : string) (top_k : Z) :
  well_formed w ->
  search_records (search_resident encode w query top_k) =
  match index (self w) with
  | None => Raise AttributeError
  | Some idx =>
      match faiss.search idx (encode query) top_k with
      | Raise e => Raise e
      | Ok (distances, indices) =>
          for_each (scored_hit (stored_records w)) (zip indices distances) []
      end
  end.
Proof.
  intros Hwf. unfold search_resident, stored_records.
  destruct (index (self w)) as [idx|]; [|reflexivity].
  destruct (faiss.search idx (encode query) top_k) as [[D I]|e]; [|reflexivity].
  pose proof (format_hits_records (chunks (self w)) (zip I D) [] (objects w)
                Hwf (Forall_nil_2 _)) as H.
  change (pickled (objects w) []) with (@nil ChunkData) in H.
  destruct (for_each (format_hit _) _ _) as [[results h]|e];
    cbn [search_records objects]; symmetry; exact H.
Qed.

Lemma index_pdfs_well_formed (encode : string -> faiss.vector)
    (w w' : World) (size : Z) (meta : Metadata) :
  index_pdfs encode w size = (Ok (Success meta), w') -> well_formed w'.
Proof.
  intros Hrun.
  apply index_pdfs_layout in Hrun as (k & _ & Hobj & Hchunks & _).
  unfold well_formed. rewrite Hchunks, Hobj.
  apply Forall_forall. intros l Hl. apply list_elem_of_In, in_seq in Hl.
  rewrite length_app. lia.
Qed.

(** X9.  Saving and loading keeps the answers: after a successful
    [index_pdfs] run, a new service on the database folder it wrote answers
    every query, for every [top_k], with the same records (file, page,
    text, score) in the same order as the service that built the index, or
    with the same exception. *)
Theorem search_after_reload (encode : string -> faiss.vector)
    (w w' : World) (size : Z) (meta : Metadata)
    (objs : heap) (pdfs : list PdfFile) (query : string) (top_k : Z) :
  index_pdfs encode w size = (Ok (Success meta), w') ->
  search_records (search encode (started objs (disk w') pdfs) query top_k)
  = search_records (search encode w' query top_k).
Proof.
  intros Hrun.
  destruct (load_index_after_index_pdfs encode w w' size meta objs pdfs Hrun)
    as (Hok & Hidx & _ & Hrec & Hwf).
  pose proof (index_pdfs_well_formed encode w w' size meta Hrun) as Hwf'.
  apply index_pdfs_layout in Hrun as (k & _ & _ & _ & Hidx' & _).
  unfold search at 1. cbn [started self index init].
  destruct (load_index (started objs (disk w') pdfs)) as [loaded w1].
  cbn [fst snd] in *. subst loaded.
  unfold search. rewrite Hidx'.
  rewrite !search_resident_records by assumption.
  rewrite Hidx, Hidx', Hrec. reflexivity.
Qed.

Lemma search_after_reload_witness :
  search_records (search Example.encode
                    (started [] (disk Example.indexed) []) "the quick" 1)
  = search_records (search Example.encode Example.indexed "the quick" 1).
Proof.
  apply (search_after_reload Example.encode
           (Example.fresh Example.no_disk Example.one_pdf)
           Example.indexed 500 Example.one_pdf_meta).
  vm_compute. reflexivity.
Defined.

Lemma format_hits_count (stored : list loc) (hits : list (Z * Q))
    (acc acc' : list loc * heap) :
  for_each (format_hit stored) hits acc = Ok acc' ->
  (length (fst acc') <= length (fst acc) + length hits)%nat.
Proof.
  revert acc. induction hits as [|hit hits IH]; intros acc; cbn.
  - intros [= <-]. lia.
  - destruct (format_hit stored acc hit) as [acc1|] eqn:Hhit; [|discriminate].
    intros Hrun. apply IH in Hrun.
    destruct acc as [results h], hit as [idx d], acc1 as [results1 h1].
    apply format_hit_score in Hhit as [[-> _]|(c & -> & _)]; cbn in *;
      rewrite ?length_app in *; cbn in *; lia.
Qed.

(** X10.  [search] never returns more than [top_k] results, whatever the
    state of the service and of the database folder. *)
Theorem search_at_most_top_k (encode : string -> faiss.vector) (w : World)
    (query : string) (top_k : Z) (results : list loc) :
  fst (search encode w query top_k) = Ok results ->
  (length results <= Z.to_nat top_k)%nat.
Proof.
  assert (Hres : forall w0 : World,
            fst (search_resident encode w0 query top_k) = Ok results ->
            (length results <= Z.to_nat top_k)%nat).
  { intros w0. unfold search_resident.
    destruct (index (self w0)) as [idx|]; [|discriminate].
    unfold faiss.search. destruct (top_k <=? 0) eqn:Hk; [discriminate|].
    apply Z.leb_gt in Hk.
    destruct (for_each _ _ _) as [[res h]|e] eqn:Hloop; [|discriminate].
    cbn. intros [= <-]. apply format_hits_count in Hloop. cbn in Hloop.
    rewrite length_zip, !length_map, length_app, length_replicate, length_take
      in Hloop. lia. }
  unfold search. destruct (index (self w)); [apply Hres|].
  destruct (load_index w) as [[] w1]; [apply Hres|].
  cbn. intros [= <-]. cbn. lia.
Qed.

Lemma search_at_most_top_k_witness :
  (length [2%nat] <= Z.to_nat 1)%nat.
Proof.
  apply (search_at_most_top_k Example.encode Example.two_chunks "xxxxxxx" 1).
  vm_compute. reflexivity.
Defined.

(** ** The nearest chunks *)

Lemma Qsquare_nonneg (q : Q) : (0 <= q * q)%Q.
Proof.
  destruct (Qlt_le_dec q 0) as [Hneg|Hpos].
  - assert (Heq : (q * q == (- q) * (- q))%Q) by ring.
    rewrite Heq. apply Qmult_le_0_compat; lra.
  - apply Qmult_le_0_compat; assumption.
Qed.

Lemma fvec_L2sqr_nonneg (x y : faiss.vector) : (0 <= faiss.fvec_L2sqr x y)%Q.
Proof.
  revert y. induction x as [|a x IH]; intros [|b y];
    cbn [faiss.fvec_L2sqr]; try apply Qle_refl.
  pose proof (Qsquare_nonneg (a - b)) as Hsq.
  exact (Qplus_le_compat 0 _ 0 _ Hsq (IH y)).
Qed.

Lemma fvec_L2sqr_self (x : faiss.vector) : (faiss.fvec_L2sqr x x == 0)%Q.
Proof.
  induction x as [|a x IH]; cbn [faiss.fvec_L2sqr]; [reflexivity|].
  rewrite IH. ring.
Qed.

Lemma insert_hit_Permutation (x : Q * Z) (l : list (Q * Z)) :
  Permutation (faiss.insert_hit x l) (x :: l).
Proof.
  induction l as [|y l IH]; cbn; [reflexivity|].
  destruct (faiss.Qlt_bool _ _); [|reflexivity].
  rewrite IH. apply perm_swap.
Qed.

Lemma sort_hits_Permutation (l : list (Q * Z)) :
  Permutation (faiss.sort_hits l) l.
Proof.
  unfold faiss.sort_hits. induction l as [|x l IH]; cbn [foldr]; [reflexivity|].
  rewrite insert_hit_Permutation, IH. reflexivity.
Qed.

Lemma StronglySorted_app_parts {A} (R : A -> A -> Prop) (a b : list A) :
  StronglySorted R (a ++ b) ->
  StronglySorted R a /\ forall x y, In x a -> In y b -> R x y.
Proof.
  induction a as [|x a IH]; cbn; intros H.
  - split; [constructor|intros ? ? []].
  - apply StronglySorted_inv in H as [Hs Hx].
    destruct (IH Hs) as [Ha Hab]. apply Forall_app in Hx as [Hxa Hxb].
    split; [constructor; assumption|].
    intros x' y [<-|Hx'] Hy; [|apply Hab; assumption].
    rewrite Forall_forall in Hxb. apply Hxb, list_elem_of_In, Hy.
Qed.

Lemma StronglySorted_map {A B} (R : B -> B -> Prop) (f : A -> B) (l : list A) :
  StronglySorted (fun a b => R (f a) (f b)) l -> StronglySorted R (map f l).
Proof.
  induction 1 as [|x l Hs IH Hx]; cbn; constructor; [exact IH|].
  rewrite List.Forall_map. exact Hx.
Qed.

(** The hits of the index before sorting: one per stored vector, labelled
    by its position. *)
Lemma faiss_hits_labels (xb : faiss.IndexFlatL2) (x : faiss.vector) :
  NoDup (map snd (imap (fun i v => (faiss.fvec_L2sqr x v, Z.of_nat i)) xb)).
Proof.
  apply NoDup_alt. intros i j z Hi Hj.
  rewrite list_lookup_fmap, list_lookup_imap in Hi, Hj.
  destruct (xb !! i); [|discriminate]. destruct (xb !! j); [|discriminate].
  cbn in Hi, Hj. injection Hi as <-. injection Hj as Hj. lia.
Qed.

Lemma faiss_hits_Forall (xb : faiss.IndexFlatL2) (x : faiss.vector) :
  Forall (fun hit : Q * Z =>
            exists v, 0 <= snd hit /\ xb !! Z.to_nat (snd hit) = Some v /\
                      fst hit = faiss.fvec_L2sqr x v)
         (imap (fun i v => (faiss.fvec_L2sqr x v, Z.of_nat i)) xb).
Proof.
  apply Forall_lookup. intros i hit Hi. rewrite list_lookup_imap in Hi.
  destruct (xb !! i) as [v|] eqn:Hv; [|discriminate]. injection Hi as <-.
  exists v. cbn. rewrite Nat2Z.id. repeat split; [lia|exact Hv].
Qed.

(** Hits whose labels name stored records give one scored record each. *)
Lemma scored_hits_in_range (cs : list ChunkData) (hits : list (Z * Q))
    (acc : list ChunkData) :
  Forall (fun hit => 0 <= fst hit < Z.of_nat (length cs)) hits ->
  exists recs,
    for_each (scored_hit cs) hits acc = Ok (acc ++ recs) /\
    Forall2 (fun hit r => exists c, cs !! Z.to_nat (fst hit) = Some c /\
                          r = set_relevance_score (relevance (snd hit)) c)
            hits recs.
Proof.
  revert acc. induction hits as [|[idx d] hits IH]; intros acc Hhits.
  - exists []. rewrite app_nil_r. split; [reflexivity|constructor].
  - apply Forall_cons in Hhits as [Hidx Hhits]. cbn in Hidx.
    cbn [for_each scored_hit].
    destruct (Z.ltb_spec idx (Z.of_nat (length cs))); [|lia].
    unfold getitem. destruct (Z.ltb_spec idx 0); [lia|].
    destruct (Z.ltb_spec idx 0); [lia|].
    destruct (lookup_lt_is_Some_2 cs (Z.to_nat idx)) as [c Hc]; [lia|].
    rewrite Hc. cbn [Py.bind].
    destruct (IH (acc ++ [set_relevance_score (relevance d) c]) Hhits)
      as (recs & -> & Hrecs).
    exists (set_relevance_score (relevance d) c :: recs).
    rewrite <- app_assoc. split; [reflexivity|].
    constructor; [|exact Hrecs]. exists c. split; [exact Hc|reflexivity].
Qed.

(** X11.  On a service whose chunk array has one record per vector of the
    index, a search for [0 < top_k <= N] results returns exactly [top_k]
    records: scored copies of [top_k] different stored chunks, each with
    the relevance of its distance to the query, in descending order of
    relevance; and no chunk that is left out is nearer to the query than
    one that is returned. *)
Theorem search_returns_nearest (encode : string -> faiss.vector) (w : World)
    (idx : faiss.IndexFlatL2) (query : string) (top_k : Z) :
  index (self w) = Some idx -> well_formed w ->
  faiss.ntotal idx = Z.of_nat (length (chunks (self w))) ->
  0 < top_k <= faiss.ntotal idx ->
  exists (row : list (Q * Z)) (records : list ChunkData),
    search_records (search encode w query top_k) = Ok records /\
    length records = Z.to_nat top_k /\
    NoDup (map snd row) /\
    Forall2 (fun hit r =>
               exists v c,
                 0 <= snd hit /\
                 idx !! Z.to_nat (snd hit) = Some v /\
                 fst hit = faiss.fvec_L2sqr (encode query) v /\
                 stored_records w !! Z.to_nat (snd hit) = Some c /\
                 r = set_relevance_score (relevance (fst hit)) c)
            row records /\
    StronglySorted (flip Qle) (map (fun hit => relevance (fst hit)) row) /\
    forall (j : nat) (v : faiss.vector),
      idx !! j = Some v -> ~ In (Z.of_nat j) (map snd row) ->
      Forall (fun hit => (fst hit <= faiss.fvec_L2sqr (encode query) v)%Q) row.
Proof.
  intros Hidx Hwf Hn Hk.
  set (hits := imap (fun i v => (faiss.fvec_L2sqr (encode query) v, Z.of_nat i)) idx).
  set (sorted := faiss.sort_hits hits).
  set (row := take (Z.to_nat top_k) sorted).
  assert (Hlen_sorted : length sorted = length idx).
  { subst sorted hits. rewrite sort_hits_length, length_imap. reflexivity. }
  assert (Hlen_row : length row = Z.to_nat top_k).
  { subst row. rewrite length_take. unfold faiss.ntotal in Hk. lia. }
  assert (Hsearch : faiss.search idx (encode query) top_k
                    = Ok (map fst row, map snd row)).
  { unfold faiss.search. destruct (Z.leb_spec top_k 0); [lia|].
    fold hits. fold sorted. fold row. rewrite Hlen_row, Nat.sub_diag. cbn.
    rewrite app_nil_r. reflexivity. }
  assert (Hall : Forall (fun hit : Q * Z =>
                   exists v, 0 <= snd hit /\ idx !! Z.to_nat (snd hit) = Some v /\
                             fst hit = faiss.fvec_L2sqr (encode query) v) sorted).
  { apply sort_hits_Forall, faiss_hits_Forall. }
  assert (Hrow : Forall (fun hit : Q * Z =>
                   exists v, 0 <= snd hit /\ idx !! Z.to_nat (snd hit) = Some v /\
                             fst hit = faiss.fvec_L2sqr (encode query) v) row).
  { apply Forall_take, Hall. }
  assert (Hparts : sorted = row ++ drop (Z.to_nat top_k) sorted).
  { subst row. rewrite take_drop. reflexivity. }
  assert (Hnodup : NoDup (map snd row ++ map snd (drop (Z.to_nat top_k) sorted))).
  { rewrite <- map_app, <- Hparts. subst sorted.
    rewrite (Permutation_map snd (sort_hits_Permutation hits)).
    apply faiss_hits_labels. }
  pose proof (sort_hits_sorted hits) as Hsorted. fold sorted in Hsorted.
  rewrite Hparts in Hsorted.
  apply StronglySorted_app_parts in Hsorted as [Hrow_sorted Hcut].
  pose proof (pickled_valid _ _ Hwf) as Hvalid.
  pose proof (Forall2_length _ _ _ Hvalid) as Hlen_cs.
  fold (stored_records w) in Hvalid, Hlen_cs.
  destruct (scored_hits_in_range (stored_records w)
              (map (fun hit : Q * Z => (snd hit, fst hit)) row) [])
    as (records & Hrun & Hrecords).
  { rewrite List.Forall_map. eapply Forall_impl; [exact Hrow|].
    intros hit (v & H0 & Hv & _). cbn. split; [exact H0|].
    apply lookup_lt_Some in Hv. unfold faiss.ntotal in Hn. lia. }
  exists row, records.
  split; [|split; [|split; [|split; [|split]]]].
  - unfold search. rewrite Hidx.
    rewrite search_resident_records by exact Hwf.
    rewrite Hidx, Hsearch, zip_row. exact Hrun.
  - apply Forall2_length in Hrecords. rewrite length_map in Hrecords.
    rewrite <- Hrecords. exact Hlen_row.
  - apply NoDup_app in Hnodup as (Hnd & _). exact Hnd.
  - apply Forall2_fmap_l in Hrecords.
    apply Forall2_same_length_lookup. split; [eapply Forall2_length, Hrecords|].
    intros i hit r Hi Hr.
    pose proof (Forall2_lookup_lr _ _ _ _ _ _ Hrecords Hi Hr) as (c & Hc & ->).
    rewrite Forall_lookup in Hrow.
    destruct (Hrow i hit Hi) as (v & H0 & Hv & Hd).
    exists v, c. cbn in Hc. repeat split; assumption.
  - rewrite <- (map_map fst relevance).
    apply relevance_descending.
    + rewrite List.Forall_map. eapply Forall_impl; [exact Hrow|].
      intros hit (v & _ & _ & ->). apply fvec_L2sqr_nonneg.
    + apply StronglySorted_map. exact Hrow_sorted.
  - intros j v Hj Hout. apply Forall_forall. intros hit Hhit.
    assert (Hin : In (faiss.fvec_L2sqr (encode query) v, Z.of_nat j) sorted).
    { apply (Permutation_in _ (Permutation_sym (sort_hits_Permutation hits))).
      apply list_elem_of_In, list_elem_of_lookup. exists j.
      subst hits. rewrite list_lookup_imap, Hj. reflexivity. }
    rewrite Hparts in Hin. apply in_app_or in Hin as [Hin|Hin].
    + exfalso. apply Hout. apply in_map_iff.
      exists (faiss.fvec_L2sqr (encode query) v, Z.of_nat j). split; [reflexivity|exact Hin].
    + apply (Hcut hit _ (proj1 (list_elem_of_In _ _) Hhit) Hin).
Qed.

Lemma search_returns_nearest_witness :
  exists (row : list (Q * Z)) (records : list ChunkData),
    search_records (search Example.encode Example.two_chunks "xxxxxxx" 2)
      = Ok records /\
    length records = Z.to_nat 2 /\
    NoDup (map snd row) /\
    Forall2 (fun hit r =>
               exists v c,
                 0 <= snd hit /\
                 [Example.encode "alpha"; Example.encode "betabeta"]
                   !! Z.to_nat (snd hit) = Some v /\
                 fst hit = faiss.fvec_L2sqr (Example.encode "xxxxxxx") v /\
                 stored_records Example.two_chunks !! Z.to_nat (snd hit)
                   = Some c /\
                 r = set_relevance_score (relevance (fst hit)) c)
            row records /\
    StronglySorted (flip Qle) (map (fun hit => relevance (fst hit)) row) /\
    forall (j : nat) (v : faiss.vector),
      [Example.encode "alpha"; Example.encode "betabeta"] !! j = Some v ->
      ~ In (Z.of_nat j) (map snd row) ->
      Forall (fun hit =>
                (fst hit <= faiss.fvec_L2sqr (Example.encode "xxxxxxx") v)%Q)
             row.
Proof.
  apply (search_returns_nearest Example.encode Example.two_chunks
           [Example.encode "alpha"; Example.encode "betabeta"] "xxxxxxx" 2).
  - reflexivity.
  - unfold well_formed. cbn. repeat constructor.
  - reflexivity.
  - unfold faiss.ntotal. cbn [length]. lia.
Defined.

Lemma relevance_at_zero (d : Q) : (d == 0 -> relevance d == 1)%Q.
Proof. intros Hd. unfold relevance. rewrite Hd. reflexivity. Qed.

(** X12.  After a successful [index_pdfs] run, a query that is exactly
    the text of an indexed chunk, with [0 < top_k <= num_chunks], gets a
    first result whose relevance score equals 1. *)
Theorem search_exact_text_scores_one (encode : string -> faiss.vector)
    (w w' : World) (size : Z) (meta : Metadata) (c : ChunkData) (top_k : Z) :
  index_pdfs encode w size = (Ok (Success meta), w') ->
  In c (stored_records w') ->
  0 < top_k <= num_chunks meta ->
  exists (r : ChunkData) (rest : list ChunkData) (s : Q),
    search_records (search encode w' (text c) top_k) = Ok (r :: rest) /\
    relevance_score r = Some s /\ (s == 1)%Q.
Proof.
  intros Hrun Hc Hk.
  pose proof (index_pdfs_well_formed encode w w' size meta Hrun) as Hwf.
  apply index_pdfs_layout in Hrun
    as (k & _ & Hobj & Hchunks & Hidx & _ & _ & Hnum & _).
  assert (Hrecs : stored_records w' = k).
  { unfold stored_records. rewrite Hobj, Hchunks. apply pickled_seq. }
  rewrite Hrecs in Hc.
  apply list_elem_of_In, list_elem_of_lookup in Hc as [j Hj].
  set (idx := map (fun c0 : ChunkData => encode (text c0)) k) in *.
  assert (Hvj : idx !! j = Some (encode (text c))).
  { subst idx. change (map ?f k) with (f <$> k).
    rewrite list_lookup_fmap, Hj. reflexivity. }
  destruct (search_returns_nearest encode w' idx (text c) top_k Hidx Hwf)
    as (row & records & Hsearch & Hlen & _ & Hpairs & Hdesc & Hnear).
  { unfold faiss.ntotal. subst idx.
    rewrite Hchunks, length_map, length_seq. reflexivity. }
  { unfold faiss.ntotal. subst idx. rewrite length_map. lia. }
  destruct Hpairs as [|hit r row' rest Hhead Hpairs]; [cbn in Hlen; lia|].
  destruct Hhead as (v & c0 & _ & Hv & Hd & _ & ->).
  exists (set_relevance_score (relevance (fst hit)) c0), rest,
         (relevance (fst hit)).
  split; [exact Hsearch|]. split; [reflexivity|].
  assert (H0 : (0 <= fst hit)%Q) by (rewrite Hd; apply fvec_L2sqr_nonneg).
  apply Qle_antisym; [apply relevance_range, H0|].
  pose proof (fvec_L2sqr_self (encode (text c))) as Hself.
  destruct (in_dec Z.eq_dec (Z.of_nat j) (map snd (hit :: row'))) as [Hin|Hout].
  - apply in_map_iff in Hin as (hit' & Hlabel & Hin).
    assert (Hd' : (fst hit' == 0)%Q).
    { destruct Hin as [<-|Hin].
      - rewrite Hlabel, Nat2Z.id in Hv.
        assert (v = encode (text c)) by congruence. subst v.
        rewrite Hd. exact Hself.
      - apply list_elem_of_In, list_elem_of_lookup in Hin as [i Hi].
        destruct (Forall2_lookup_l _ _ _ _ _ Hpairs Hi)
          as (r' & _ & v' & c' & _ & Hv' & Hd'' & _).
        rewrite Hlabel, Nat2Z.id in Hv'.
        assert (v' = encode (text c)) by congruence. subst v'.
        rewrite Hd''. exact Hself. }
    destruct Hin as [<-|Hin].
    + rewrite (relevance_at_zero _ Hd'). apply Qle_refl.
    + cbn [map] in Hdesc. apply StronglySorted_inv in Hdesc as [_ Hall].
      rewrite List.Forall_map, Forall_forall in Hall.
      specialize (Hall hit' (proj2 (list_elem_of_In _ _) Hin)).
      unfold flip in Hall. rewrite (relevance_at_zero _ Hd') in Hall.
      exact Hall.
  - specialize (Hnear j _ Hvj Hout).
    apply Forall_cons in Hnear as [Hle _].
    rewrite Hself in Hle.
    assert (Hz : (fst hit == 0)%Q) by (apply Qle_antisym; assumption).
    rewrite (relevance_at_zero _ Hz). apply Qle_refl.
Qed.

Lemma search_exact_text_scores_one_witness :
  exists (r : ChunkData) (rest : list ChunkData) (s : Q),
    search_records (search Example.encode Example.indexed
                      Example.sentence 1) = Ok (r :: rest) /\
    relevance_score r = Some s /\ (s == 1)%Q.
Proof.
  apply (search_exact_text_scores_one Example.encode
           (Example.fresh Example.no_disk Example.one_pdf)
           Example.indexed 500 Example.one_pdf_meta
           (Example.chunk Example.sentence 1) 1).
  - vm_compute. reflexivity.
  - left. reflexivity.
  - cbn. lia.
Defined.

(** ** Formatting, readiness and the search tool *)

Lemma fold_left_snoc {A B} (f : list B -> A -> list B) (g : A -> B)
    (items : list A) (acc : list B) :
  (forall acc0 it, f acc0 it = acc0 ++ [g it]) ->
  fold_left f items acc = acc ++ map g items.
Proof.
  intros Hf. revert acc. induction items as [|it items IH]; intros acc; cbn.
  - rewrite app_nil_r. reflexivity.
  - rewrite IH, Hf, <- app_assoc. reflexivity.
Qed.

Lemma get_first_append (a b : string) (c : ascii) :
  String.get 0 a = Some c -> String.get 0 (String.append a b) = Some c.
Proof. destruct a; cbn; [discriminate|auto]. Qed.

Lemma get_first_join (sep e : string) (es : list string) (c : ascii) :
  String.get 0 e = Some c -> String.get 0 (join sep (e :: es)) = Some c.
Proof.
  intros He. unfold join. cbn [String.concat].
  destruct es; [exact He|]. apply get_first_append, He.
Qed.

Lemma citation_first (citation_format : string) (i : Z) (result : ChunkData) :
  exists c, String.get 0 (citation citation_format i result) = Some c /\
            c <> "N"%char.
Proof.
  unfold citation.
  destruct (String.eqb citation_format "IEEE");
    [|destruct (String.eqb citation_format "APA");
      [|destruct (String.eqb citation_format "Vancouver")]];
    cbn; eexists; (split; [reflexivity|discriminate]).
Qed.

(** X13.  [format_results_for_citation] answers "No relevant local
    documents found." exactly when there is no result: for every style,
    the text for a list with at least one result is a different one. *)
Theorem format_results_for_citation_empty (results : list ChunkData)
    (citation_format : string) :
  format_results_for_citation results citation_format = NO_DOCUMENTS <->
  results = [].
Proof.
  split; [|intros ->; reflexivity].
  destruct results as [|r rs]; [reflexivity|]. intros Hout. exfalso.
  unfold format_results_for_citation in Hout.
  rewrite (fold_left_snoc _
             (fun it : Z * ChunkData =>
                (citation citation_format (fst it) (snd it) ++ newline
                   ++ "Relevant excerpt: " ++ excerpt 200 (text (snd it))
                   ++ newline)%string)) in Hout
    by (intros acc0 [i0 r0]; reflexivity).
  unfold enumerate_from in Hout. cbn [imap map app fst snd] in Hout.
  destruct (citation_first citation_format (1 + Z.of_nat 0) r) as (c & Hc & Hne).
  lazymatch type of Hout with
  | join _ (String.append ?e ?tail :: ?es) = _ =>
      pose proof (get_first_join newline (String.append e tail) es c
                    (get_first_append e tail c Hc)) as Hfirst
  end.
  rewrite Hout in Hfirst. cbn in Hfirst. congruence.
Qed.

(** X14.  After a successful [index_pdfs] run, [check_rag_ready] on the
    same PDF folder and database folder answers that retrieval is ready,
    with the number of PDF files that the manifest reports. *)
Theorem check_rag_ready_after_index_pdfs (encode : string -> faiss.vector)
    (w w' : World) (size : Z) (meta : Metadata) (pdf_folder_name : string) :
  index_pdfs encode w size = (Ok (Success meta), w') ->
  check_rag_ready pdf_folder_name (Some (pdf_folder w')) (disk w') =
  (true,
   ("RAG ready: " ++ str_of_int (num_pdfs meta) ++ " PDFs indexed")%string).
Proof.
  intros Hrun.
  destruct (index_pdfs_skips_unreadable encode w size)
    as (_ & _ & _ & _ & _ & Hmeta).
  destruct (Hmeta meta) as (Hnum & _); [rewrite Hrun; reflexivity|].
  assert (Hne : pdf_folder w <> []).
  { intros Hnone. rewrite (index_pdfs_no_pdfs encode w size Hnone) in Hrun.
    discriminate. }
  apply index_pdfs_layout in Hrun as (k & _ & _ & _ & _ & _ & Hdisk & _ & Hf).
  unfold check_rag_ready. rewrite Hf, Hdisk, Hnum. cbn [index_path].
  destruct (pdf_folder w); [congruence|reflexivity].
Qed.

Lemma check_rag_ready_after_index_pdfs_witness :
  check_rag_ready "./pdf_library" (Some (pdf_folder Example.indexed))
    (disk Example.indexed)
  = (true, "RAG ready: 1 PDFs indexed"%string).
Proof.
  apply (check_rag_ready_after_index_pdfs Example.encode
           (Example.fresh Example.no_disk Example.one_pdf)
           Example.indexed 500 Example.one_pdf_meta "./pdf_library").
  vm_compute. reflexivity.
Defined.







(** ** What exactly is indexed *)

Section IndexExact.

Variable encode : string -> faiss.vector.

Lemma add_chunks_records h0 page_data items k acc :
  laid_out encode h0 k acc ->
  laid_out encode h0 (k ++ map (record_of page_data) items)
    (fold_left (add_chunk encode page_data) items acc).
Proof.
  revert k acc. induction items as [|[i chunk] items IH];
    intros k [[cs es] h] (-> & -> & ->); cbn [fold_left map].
  - rewrite app_nil_r. repeat split.
  - replace (k ++ record_of page_data (i, chunk) :: map (record_of page_data) items)
      with ((k ++ [record_of page_data (i, chunk)])
              ++ map (record_of page_data) items)
      by (rewrite <- app_assoc; reflexivity).
    apply IH. cbn. split; [rewrite app_assoc; reflexivity|]. split.
    + rewrite !length_app. cbn [length]. rewrite Nat.add_1_r, seq_S. reflexivity.
    + rewrite map_app. reflexivity.
Qed.

Lemma index_pages_records size h0 pages k acc acc' :
  laid_out encode h0 k acc ->
  for_each (index_page encode size) pages acc = Ok acc' ->
  laid_out encode h0 (k ++ flat_map (page_records size) pages) acc'.
Proof.
  revert k acc. induction pages as [|p pages IH]; intros k acc Hacc; cbn.
  - intros [= <-]. rewrite app_nil_r. exact Hacc.
  - unfold index_page at 1, page_records at 1, page_chunks.
    destruct (chunk_text (Page.text p) size DEFAULT_OVERLAP) as [cut|];
      [|discriminate].
    cbn [Py.bind]. intros Hrun. rewrite app_assoc.
    apply (IH _ _ (add_chunks_records h0 p (enumerate cut) k acc Hacc) Hrun).
Qed.

End IndexExact.

(** X18.  A successful [index_pdfs] run indexes every chunk of every
    extracted page exactly once and in order: the chunk records of the
    service are those of the first page's chunks (numbered from 0), then
    the second page's, and so on through the files; the vector index holds
    the embeddings of their texts in the same order, and the chunk file
    holds the same records. *)
Theorem index_pdfs_indexes_every_chunk (encode : string -> faiss.vector)
    (w w' : World) (size : Z) (meta : Metadata) :
  index_pdfs encode w size = (Ok (Success meta), w') ->
  stored_records w' = corpus_records size (pdf_folder w) /\
  index (self w') =
    Some (map (fun c => encode (text c)) (corpus_records size (pdf_folder w))) /\
  chunks_path (disk w') = Stored (corpus_records size (pdf_folder w)) /\
  num_chunks meta = Z.of_nat (length (corpus_records size (pdf_folder w))).
Proof.
  intros Hrun.
  pose proof (index_pdfs_layout encode w w' size meta Hrun)
    as (k & _ & Hobj & Hchunks & Hidx & _ & Hdisk & Hnum & _).
  assert (Hk : k = corpus_records size (pdf_folder w)).
  { unfold index_pdfs in Hrun.
    destruct (pdf_folder w) as [|f fs] eqn:Hf; [discriminate|].
    destruct (for_each _ _ _) as [[[cs es] h]|e] eqn:Hloop; [|discriminate].
    rewrite index_pdfs_loop_flat in Hloop.
    apply (index_pages_records encode size (objects w) _ []) in Hloop
      as (Hh & _ & _); [|cbn; rewrite app_nil_r; repeat split].
    cbn [app] in Hh.
    destruct cs as [|l0 cs]; [discriminate|].
    apply pair_equal_spec in Hrun as [_ <-]. cbn [objects] in Hobj.
    rewrite Hh in Hobj. apply app_inv_head in Hobj. symmetry. exact Hobj. }
  subst k. unfold stored_records.
  rewrite Hobj, Hchunks, pickled_seq, Hidx, Hdisk. repeat split. exact Hnum.
Qed.

Lemma index_pdfs_indexes_every_chunk_witness :
  stored_records Example.indexed = corpus_records 500 Example.one_pdf /\
  index (self Example.indexed) =
    Some (map (fun c => Example.encode (text c))
              (corpus_records 500 Example.one_pdf)).
Proof.
  destruct (index_pdfs_indexes_every_chunk Example.encode
              (Example.fresh Example.no_disk Example.one_pdf)
              Example.indexed 500 Example.one_pdf_meta)
    as (Hrec & Hidx & _).
  - vm_compute. reflexivity.
  - split; [exact Hrec|exact Hidx].
Defined.

Lemma index_pdfs_skips_unreadable_witness :
  num_pdfs Example.one_pdf_meta
    = Z.of_nat (length (pdf_folder
                          (Example.fresh Example.no_disk Example.one_pdf))) /\
  pdf_files Example.one_pdf_meta
    = map name (pdf_folder (Example.fresh Example.no_disk Example.one_pdf)).
Proof.
  destruct (index_pdfs_skips_unreadable Example.encode
              (Example.fresh Example.no_disk Example.one_pdf) 500)
    as (_ & _ & _ & _ & _ & Hmeta).
  destruct (Hmeta Example.one_pdf_meta) as (Hnum & Hfiles & _).
  - vm_compute. reflexivity.
  - split; [exact Hnum|exact Hfiles].
Defined.
